(** * Stick figure from key points: skeleton model, pose interpolation,
    procedural animation, physics toy and pose serializer.

    A shallow embedding of [stick_figure.py] and [advanced_examples.py].

    Modelling conventions.
    - A Python [dict] keyed by joint names is a [gmap string _].  Iterating a
      dict visits every key once; the order of the visit is the order of
      [map_to_list], and the statements below do not depend on it.
    - Python numbers (the [int] and [float] coordinates of the program) are
      exact rationals [Qc]; the rounding of binary floating point is outside
      that model.  Where a statement turns on the rounding, the same lines
      are read on binary64, the [float] of the kernel, whose operations are
      those of the machine ([interpolate_binary64]).
    - A Python exception is a value of [exn]; a call that may raise returns a
      [result].  Methods that mutate [self] run in the state and exception
      monad [M], whose state survives a raised exception, as a mutated
      Python object does.
    - The plotting library, the animation timer, [numpy]'s [sin], [cos] and
      [pi], and the file that holds a saved pose are collaborators: they
      enter as parameters. *)

From Stdlib Require Import Floats.PrimFloat.
From Stdlib Require Import QArith Qcanon Qround.
From stdpp Require Import gmap strings list fin_maps.

Set Warnings "-register-all,-clear-no-such-hyp,-inexact-float".

Local Open Scope string_scope.
Local Open Scope Qc_scope.

(** ** Python values: exceptions, results, numeric literals *)

Inductive exn : Type :=
| KeyError (key : string)
| TypeError
| AttributeError
| ZeroDivisionError
| FileNotFoundError
| KeyboardInterrupt
| ExternalError (msg : string).

Inductive result (A : Type) : Type :=
| Ok (a : A)
| Raise (e : exn).
Arguments Ok {A} a.
Arguments Raise {A} e.

#[global] Instance result_ret : MRet result := @Ok.
#[global] Instance result_bind : MBind result := λ A B f r,
  match r with
  | Ok a => f a
  | Raise e => Raise e
  end.

(** A Python numeric literal such as [1.7] or [-0.02]. *)
Definition lit (q : Q) : Qc := Q2Qc q.
Arguments lit q%_Q.

(** [d[k]] on a dict: the value, or [KeyError]. *)
Definition getitem {V : Type} (d : gmap string V) (k : string) : result V :=
  match d !! k with
  | Some v => Ok v
  | None => Raise (KeyError k)
  end.

(** [d.keys()], as the sequence a [for] loop walks. *)
Definition keys {V : Type} (d : gmap string V) : list string :=
  (map_to_list d).*1.

(** [d.items()], as the sequence a [for] loop walks.  A loop that assigns
    [d[k]] only for the key [k] it is visiting sees, for each key, the value
    the dict held when the loop started. *)
Definition items {V : Type} (d : gmap string V) : list (string * V) :=
  map_to_list d.

(** ** Methods that mutate [self]: state that survives an exception *)

Definition M (S A : Type) : Type := S → S * result A.

#[global] Instance M_ret {S : Type} : MRet (M S) := λ A a s, (s, Ok a).
#[global] Instance M_bind {S : Type} : MBind (M S) := λ A B f m s,
  match m s with
  | (s', Ok a) => f a s'
  | (s', Raise e) => (s', Raise e)
  end.

Definition raise {S A : Type} (e : exn) : M S A := λ s, (s, Raise e).
Definition lift {S A : Type} (r : result A) : M S A := λ s, (s, r).
Definition get {S : Type} : M S S := λ s, (s, Ok s).
Definition modify {S : Type} (f : S → S) : M S unit := λ s, (f s, Ok tt).

(** [for a in l: body(a)] *)
Fixpoint for_each {S A : Type} (l : list A) (body : A → M S unit) : M S unit :=
  match l with
  | [] => mret tt
  | a :: rest => body a ;; for_each rest body
  end.

(** ** The skeleton model ([stick_figure.py], class [StickFigure]) *)

(** The coordinate type is a parameter: the figure built by the constructor
    holds numbers, the figure returned by the loader holds whatever the saved
    record held. *)
Record StickFigure (V : Type) : Type := mkStickFigure {
  joints : gmap string (V * V);
  skeleton_connections : list (string * string)
}.
Arguments mkStickFigure {V} _ _.
Arguments joints {V} _.
Arguments skeleton_connections {V} _.

Abbreviation pose := (gmap string (Qc * Qc)).

Definition default_joints : pose :=
  list_to_map [
    ("head", (lit 0, lit 1.7));
    ("neck", (lit 0, lit 1.4));
    ("left_shoulder", (lit (-0.3), lit 1.3));
    ("right_shoulder", (lit 0.3, lit 1.3));
    ("left_hip", (lit (-0.2), lit 0.5));
    ("right_hip", (lit 0.2, lit 0.5));
    ("spine_mid", (lit 0, lit 0.9));
    ("left_elbow", (lit (-0.5), lit 0.9));
    ("left_wrist", (lit (-0.6), lit 0.5));
    ("right_elbow", (lit 0.5, lit 0.9));
    ("right_wrist", (lit 0.6, lit 0.5));
    ("left_knee", (lit (-0.2), lit 0.0));
    ("left_ankle", (lit (-0.2), lit (-0.5)));
    ("right_knee", (lit 0.2, lit 0.0));
    ("right_ankle", (lit 0.2, lit (-0.5)))
  ].

Definition default_connections : list (string * string) := [
  ("head", "neck");
  ("neck", "spine_mid");
  ("neck", "left_shoulder");
  ("neck", "right_shoulder");
  ("spine_mid", "left_hip");
  ("spine_mid", "right_hip");
  ("left_hip", "right_hip");
  ("left_shoulder", "left_elbow");
  ("left_elbow", "left_wrist");
  ("right_shoulder", "right_elbow");
  ("right_elbow", "right_wrist");
  ("left_hip", "left_knee");
  ("left_knee", "left_ankle");
  ("right_hip", "right_knee");
  ("right_knee", "right_ankle")
].

(** [StickFigure()] *)
Definition new_StickFigure : StickFigure Qc :=
  mkStickFigure default_joints default_connections.

(** The fixed vocabulary of the fifteen joint names. *)
Definition joint_names : gset string := dom default_joints.

(** A valid pose gives a position to each of the fifteen joints and to
    nothing else. *)
Definition valid_pose (p : pose) : Prop := dom p = joint_names.

(** [self.joints[name] = pos], the plain dict assignment. *)
Definition setitem_joint {V : Type} (name : string) (pos : V * V)
    (self : StickFigure V) : StickFigure V :=
  mkStickFigure (<[name := pos]> (joints self)) (skeleton_connections self).

(** [update_joint]: overwrite a known joint, warn about (and ignore) an
    unknown one.  The printed warning is not modelled. *)
Definition update_joint {V : Type} (joint_name : string) (new_position : V * V)
    (self : StickFigure V) : StickFigure V :=
  if decide (joint_name ∈ dom (joints self))
  then setitem_joint joint_name new_position self
  else self.

(** [plot_skeleton] reads both end points of every bone and hands them to
    the plotting library; it writes nothing to the figure. *)
Definition plot_skeleton : M (StickFigure Qc) unit :=
  self ← get;
  for_each (skeleton_connections self) (λ c,
    '(x1, y1) ← lift (getitem (joints self) c.1);
    '(x2, y2) ← lift (getitem (joints self) c.2);
    mret tt).

(** ** The procedural animator ([animate_wave], [animate_walk]) *)

(** [a / b] on two Python ints. *)
Definition true_div (a b : Z) : result Qc :=
  if decide (b = 0%Z) then Raise ZeroDivisionError
  else Ok (Qc_of_Z a / Qc_of_Z b).

(** What the animation library does with the [update] callback between the
    creation of the animation and the return of [plt.show]: the frame
    numbers it plays, in order (while saving and while showing), and the
    exception, if any, that escapes [anim.save] or [plt.show]. *)
Record playback : Type := mkPlayback {
  played : list Z;
  escaped : option exn
}.

Definition finish (run : playback) : M (StickFigure Qc) unit :=
  match escaped run with
  | Some e => raise e
  | None => mret tt
  end.

(** The amplitudes of the wave: elbow height, wrist sway, wrist height. *)
Definition wave_elbow_y_amplitude : Qc := lit 0.2.
Definition wave_wrist_x_amplitude : Qc := lit 0.1.
Definition wave_wrist_y_amplitude : Qc := lit 0.4.

Section Animator.
Variables (np_sin np_cos : Qc → Qc) (np_pi : Qc).

(** The phase angle of a frame: two complete cycles over the run. *)
Definition phase (q : Qc) : Qc := q * lit 4 * np_pi.

(** The nested [update(frame)] of [animate_wave]. *)
Definition wave_update (frames : Z)
    (original_right_elbow original_right_wrist : Qc * Qc) (frame : Z)
    : M (StickFigure Qc) unit :=
  q ← lift (true_div frame frames);
  let angle := phase q in
  let elbow_y := original_right_elbow.2 + wave_elbow_y_amplitude * np_sin angle in
  let wrist_y := original_right_wrist.2 + wave_wrist_y_amplitude * np_sin angle in
  let wrist_x := original_right_wrist.1 + wave_wrist_x_amplitude * np_cos angle in
  modify (update_joint "right_elbow" (original_right_elbow.1, elbow_y)) ;;
  modify (update_joint "right_wrist" (wrist_x, wrist_y)) ;;
  plot_skeleton.

Definition animate_wave (frames : Z) (run : playback) : M (StickFigure Qc) unit :=
  self ← get;
  original_right_elbow ← lift (getitem (joints self) "right_elbow");
  original_right_wrist ← lift (getitem (joints self) "right_wrist");
  for_each (played run)
    (wave_update frames original_right_elbow original_right_wrist) ;;
  finish run ;;
  modify (setitem_joint "right_elbow" original_right_elbow) ;;
  modify (setitem_joint "right_wrist" original_right_wrist).

(** The nested [update(frame)] of [animate_walk]. *)
Definition walk_update (frames : Z) (original_positions : pose) (frame : Z)
    : M (StickFigure Qc) unit :=
  q ← lift (true_div frame frames);
  let angle := phase q in
  let left_leg_angle := angle in
  let right_leg_angle := angle + np_pi in
  o_left_knee ← lift (getitem original_positions "left_knee");
  o_left_ankle ← lift (getitem original_positions "left_ankle");
  let left_knee_y := o_left_knee.2 + lit 0.1 * np_sin left_leg_angle in
  let left_ankle_y := o_left_ankle.2 + lit 0.15 * np_sin left_leg_angle in
  let left_ankle_x := o_left_ankle.1 + lit 0.05 * np_sin left_leg_angle in
  o_right_knee ← lift (getitem original_positions "right_knee");
  o_right_ankle ← lift (getitem original_positions "right_ankle");
  let right_knee_y := o_right_knee.2 + lit 0.1 * np_sin right_leg_angle in
  let right_ankle_y := o_right_ankle.2 + lit 0.15 * np_sin right_leg_angle in
  let right_ankle_x := o_right_ankle.1 + lit 0.05 * np_sin right_leg_angle in
  let left_arm_angle := right_leg_angle in
  let right_arm_angle := left_leg_angle in
  o_left_wrist ← lift (getitem original_positions "left_wrist");
  o_right_wrist ← lift (getitem original_positions "right_wrist");
  let left_wrist_y := o_left_wrist.2 + lit 0.1 * np_sin left_arm_angle in
  let right_wrist_y := o_right_wrist.2 + lit 0.1 * np_sin right_arm_angle in
  modify (update_joint "left_knee" (o_left_knee.1, left_knee_y)) ;;
  modify (update_joint "left_ankle" (left_ankle_x, left_ankle_y)) ;;
  modify (update_joint "right_knee" (o_right_knee.1, right_knee_y)) ;;
  modify (update_joint "right_ankle" (right_ankle_x, right_ankle_y)) ;;
  modify (update_joint "left_wrist" (o_left_wrist.1, left_wrist_y)) ;;
  modify (update_joint "right_wrist" (o_right_wrist.1, right_wrist_y)) ;;
  plot_skeleton.

Definition animate_walk (frames : Z) (run : playback) : M (StickFigure Qc) unit :=
  self ← get;
  left_knee ← lift (getitem (joints self) "left_knee");
  left_ankle ← lift (getitem (joints self) "left_ankle");
  right_knee ← lift (getitem (joints self) "right_knee");
  right_ankle ← lift (getitem (joints self) "right_ankle");
  left_elbow ← lift (getitem (joints self) "left_elbow");
  left_wrist ← lift (getitem (joints self) "left_wrist");
  right_elbow ← lift (getitem (joints self) "right_elbow");
  right_wrist ← lift (getitem (joints self) "right_wrist");
  let original_positions : pose :=
    <["left_knee" := left_knee]> (
    <["left_ankle" := left_ankle]> (
    <["right_knee" := right_knee]> (
    <["right_ankle" := right_ankle]> (
    <["left_elbow" := left_elbow]> (
    <["left_wrist" := left_wrist]> (
    <["right_elbow" := right_elbow]> (
    <["right_wrist" := right_wrist]> ∅))))))) in
  for_each (played run) (walk_update frames original_positions) ;;
  finish run ;;
  for_each (items original_positions)
    (λ e, modify (setitem_joint e.1 e.2)).
End Animator.

(** Rational stand-ins for [numpy]'s [sin], [cos] and [pi], for the closed
    examples.  They agree with the real functions at angle [0] ([sin 0 = 0],
    [cos 0 = 1]), the angle of frame [0], which is all that the example of
    an interrupted animation evaluates; the other examples instantiate
    statements that hold for any three values of the parameters. *)
Definition approx_sin (x : Qc) : Qc := x - x * x * x / lit 6.
Definition approx_cos (x : Qc) : Qc := lit 1 - x * x / lit 2.
Definition approx_pi : Qc := lit 3.141592653589793.

(** ** The pose interpolator ([advanced_examples.py], [PoseSequence]) *)

Fixpoint interpolate_loop (names : list string) (pose1 pose2 : pose) (t : Qc)
    (interpolated : pose) : result pose :=
  match names with
  | [] => Ok interpolated
  | joint_name :: rest =>
      '(x1, y1) ← getitem pose1 joint_name;
      '(x2, y2) ← getitem pose2 joint_name;
      let x := x1 + (x2 - x1) * t in
      let y := y1 + (y2 - y1) * t in
      interpolate_loop rest pose1 pose2 t (<[joint_name := (x, y)]> interpolated)
  end.

Definition interpolate (pose1 pose2 : pose) (t : Qc) : result pose :=
  interpolate_loop (keys pose1) pose1 pose2 t ∅.

(** The blend the specification describes: [A + (B - A) * t] on each
    coordinate of each joint. *)
Definition lerp (a b t : Qc) : Qc := a + (b - a) * t.

Definition lerp_point (t : Qc) (p q : Qc * Qc) : Qc * Qc :=
  (lerp p.1 q.1 t, lerp p.2 q.2 t).

Definition blend (A B : pose) (t : Qc) : pose :=
  map_zip_with (lerp_point t) A B.

(** The lines of [interpolate] once more, with the numbers and their three
    operations left open.  On [Qc] with its operations this is [interpolate]
    above ([interpolate_in_exact]); on binary64 with the operations of the
    machine it is what Python computes on [float] coordinates. *)
Section InterpolateIn.
Context {N : Type} (add sub mul : N → N → N).

Fixpoint interpolate_loop_in (names : list string)
    (pose1 pose2 : gmap string (N * N)) (t : N)
    (interpolated : gmap string (N * N)) : result (gmap string (N * N)) :=
  match names with
  | [] => Ok interpolated
  | joint_name :: rest =>
      '(x1, y1) ← getitem pose1 joint_name;
      '(x2, y2) ← getitem pose2 joint_name;
      let x := add x1 (mul (sub x2 x1) t) in
      let y := add y1 (mul (sub y2 y1) t) in
      interpolate_loop_in rest pose1 pose2 t (<[joint_name := (x, y)]> interpolated)
  end.

Definition interpolate_in (pose1 pose2 : gmap string (N * N)) (t : N)
    : result (gmap string (N * N)) :=
  interpolate_loop_in (keys pose1) pose1 pose2 t ∅.

End InterpolateIn.

(** A pose whose coordinates are Python [float]s. *)
Abbreviation pose64 := (gmap string (float * float)).


(** ** The pose serializer ([advanced_examples.py], [PoseSerializer]) *)

(** What [json.dump] writes and [json.load] reads back.  A Python tuple is
    written as an array; an object is read back as a dict. *)
Inductive json : Type :=
| JNull
| JBool (b : bool)
| JNum (n : Qc)
| JStr (s : string)
| JArr (elements : list json)
| JObj (fields : gmap string json).

(** The files on disk, by name.  A file written by [json.dump] holds the
    value that [json.load] returns for it. *)
Abbreviation files := (gmap string json).

(** [v[k]] on a decoded value: only a dict can be indexed by a string. *)
Definition json_getitem (v : json) (k : string) : result json :=
  match v with
  | JObj fields => getitem fields k
  | _ => Raise TypeError
  end.

(** [v.items()] on a decoded value: only a dict has the method. *)
Definition json_items (v : json) : result (list (string * json)) :=
  match v with
  | JObj fields => Ok (items fields)
  | _ => Raise AttributeError
  end.

(** [{'x': pos[0], 'y': pos[1]}] *)
Definition joint_record (pos : Qc * Qc) : json :=
  JObj (<["x" := JNum pos.1]> (<["y" := JNum pos.2]> ∅)).

Definition save_pose (stick_figure : StickFigure Qc) (filename : string)
    (fs : files) : files :=
  let data := JObj (<["joints" := JObj (joint_record <$> joints stick_figure)]>
              (<["connections" :=
                JArr ((λ c : string * string, JArr [JStr c.1; JStr c.2])
                      <$> skeleton_connections stick_figure)]> ∅)) in
  <[filename := data]> fs.

(** [open(filename, 'r')] followed by [json.load]. *)
Definition read_json (fs : files) (filename : string) : result json :=
  match fs !! filename with
  | Some data => Ok data
  | None => Raise FileNotFoundError
  end.

(** The figure [StickFigure()] as the loader holds it: the default numbers,
    in a map whose coordinates may later be any decoded value. *)
Definition new_StickFigure_json : StickFigure json :=
  mkStickFigure (prod_map JNum JNum <$> joints new_StickFigure)
                (skeleton_connections new_StickFigure).

Fixpoint load_loop (entries : list (string * json)) (sf : StickFigure json)
    : result (StickFigure json) :=
  match entries with
  | [] => Ok sf
  | (name, coords) :: rest =>
      x ← json_getitem coords "x";
      y ← json_getitem coords "y";
      load_loop rest (mkStickFigure (<[name := (x, y)]> (joints sf))
                                    (skeleton_connections sf))
  end.

Definition load_pose (filename : string) (fs : files) : result (StickFigure json) :=
  data ← read_json fs filename;
  let sf := new_StickFigure_json in
  joints_data ← json_getitem data "joints";
  entries ← json_items joints_data;
  load_loop entries sf.

(** ** The physics toy ([advanced_examples.py], [PhysicsSimulator]) *)

(** A constraint is the dict of its optional bounds, ['y_min'] and
    ['y_max']. *)
Abbreviation constraint := (gmap string Qc).

Record PhysicsSimulator : Type := mkPhysicsSimulator {
  sf : StickFigure Qc;
  gravity : Qc;
  velocities : gmap string (Qc * Qc);
  constraints : gmap string constraint
}.

Definition _build_constraints : gmap string constraint :=
  <["left_ankle" := <["y_min" := lit (-0.8)]> (<["y_max" := lit 0.5]> ∅)]> (
  <["right_ankle" := <["y_min" := lit (-0.8)]> (<["y_max" := lit 0.5]> ∅)]> (
  <["head" := <["y_min" := lit 0.5]> (<["y_max" := lit 2.5]> ∅)]> ∅)).

(** [PhysicsSimulator(stick_figure)] *)
Definition new_PhysicsSimulator (stick_figure : StickFigure Qc) : PhysicsSimulator :=
  mkPhysicsSimulator stick_figure (lit (-0.02))
    ((λ _, (lit 0, lit 0)) <$> joints stick_figure)
    _build_constraints.

(** [self.velocities[name] = v] and [self.sf.joints[name] = pos]. *)
Definition set_velocity (name : string) (v : Qc * Qc) (self : PhysicsSimulator)
    : PhysicsSimulator :=
  mkPhysicsSimulator (sf self) (gravity self) (<[name := v]> (velocities self))
    (constraints self).

Definition set_position (name : string) (pos : Qc * Qc) (self : PhysicsSimulator)
    : PhysicsSimulator :=
  mkPhysicsSimulator (setitem_joint name pos (sf self)) (gravity self)
    (velocities self) (constraints self).

(** The damping factor of a bounce. *)
Definition bounce_damping : Qc := lit 0.7.

(** The body of the loop of [apply_gravity]. *)
Definition accelerate (joint_name : string) : M PhysicsSimulator unit :=
  self ← get;
  '(vx, vy) ← lift (getitem (velocities self) joint_name);
  modify (set_velocity joint_name (vx, vy + gravity self)).

Definition apply_gravity : M PhysicsSimulator unit :=
  self ← get;
  for_each (keys (joints (sf self))) accelerate.

(** The body of the loop of [apply_constraints]. *)
Definition constrain (joint_name : string) (c : constraint) : M PhysicsSimulator unit :=
  self ← get;
  '(x, y) ← lift (getitem (joints (sf self)) joint_name);
  y ← match c !! "y_min" with
      | Some lo =>
          if bool_decide (y < lo) then
            self ← get;
            '(vx, vy) ← lift (getitem (velocities self) joint_name);
            modify (set_velocity joint_name (vx, - vy * bounce_damping)) ;;
            mret lo
          else mret y
      | None => mret y
      end;
  let y := match c !! "y_max" with
           | Some hi => if bool_decide (hi < y) then hi else y
           | None => y
           end in
  modify (set_position joint_name (x, y)).

Definition apply_constraints : M PhysicsSimulator unit :=
  self ← get;
  for_each (items (constraints self)) (λ e, constrain e.1 e.2).

(** The body of the position loop of [update]. *)
Definition move (joint_name : string) (pos : Qc * Qc) : M PhysicsSimulator unit :=
  self ← get;
  '(vx, vy) ← lift (getitem (velocities self) joint_name);
  modify (set_position joint_name (pos.1 + vx, pos.2 + vy)).

Definition update : M PhysicsSimulator unit :=
  apply_gravity ;;
  self ← get;
  for_each (items (joints (sf self))) (λ e, move e.1 e.2) ;;
  apply_constraints.

(** [n] calls of [update], one per frame of [drop_animation]. *)
Fixpoint run_updates (n : nat) : M PhysicsSimulator unit :=
  match n with
  | O => mret tt
  | S n' => update ;; run_updates n'
  end.

(** ** What the statements are about *)

(** One step of one joint as the specification tells it: gravity into the
    velocity and the velocity into the position, once; then, for a joint
    with a constraint, the lower bound with its bounce, then the upper
    bound. *)
Definition integrate (g : Qc) (pos vel : Qc * Qc) : (Qc * Qc) * (Qc * Qc) :=
  let vy := vel.2 + g in
  ((pos.1 + vel.1, pos.2 + vy), (vel.1, vy)).

Definition clamp_y_min (c : constraint) (pv : (Qc * Qc) * (Qc * Qc))
    : (Qc * Qc) * (Qc * Qc) :=
  match c !! "y_min" with
  | Some lo =>
      if bool_decide (pv.1.2 < lo)
      then ((pv.1.1, lo), (pv.2.1, - (bounce_damping * pv.2.2)))
      else pv
  | None => pv
  end.

Definition clamp_y_max (c : constraint) (pv : (Qc * Qc) * (Qc * Qc))
    : (Qc * Qc) * (Qc * Qc) :=
  match c !! "y_max" with
  | Some hi => if bool_decide (hi < pv.1.2) then ((pv.1.1, hi), pv.2) else pv
  | None => pv
  end.

Definition step_joint (g : Qc) (c : option constraint) (pos vel : Qc * Qc)
    : (Qc * Qc) * (Qc * Qc) :=
  match c with
  | None => integrate g pos vel
  | Some c => clamp_y_max c (clamp_y_min c (integrate g pos vel))
  end.

(** What the constructor establishes and [update] keeps: one velocity per
    joint, constraints on joints that exist, and a lower bound that is not
    above the upper bound. *)
Definition ordered_bounds (c : constraint) : Prop :=
  ∀ lo hi : Qc, c !! "y_min" = Some lo → c !! "y_max" = Some hi → (lo ≤ hi)%Qc.

Definition sim_ok (s : PhysicsSimulator) : Prop :=
  dom (velocities s) = dom (joints (sf s))
  ∧ dom (constraints s) ⊆ dom (joints (sf s))
  ∧ ∀ k c, constraints s !! k = Some c → ordered_bounds c.

(** The position a joint entry of a record stands for, when the entry is an
    object with both an ['x'] and a ['y']; the two values are taken as they
    are, numbers or not. *)
Definition entry_position (coords : json) : option (json * json) :=
  match coords with
  | JObj fields =>
      match fields !! "x", fields !! "y" with
      | Some x, Some y => Some (x, y)
      | _, _ => None
      end
  | _ => None
  end.

(** A figure that [plot_skeleton] can draw and the animators can run on: the
    fifteen joints, and bones between joints that exist. *)
Definition valid_figure (self : StickFigure Qc) : Prop :=
  valid_pose (joints self)
  ∧ ∀ c, c ∈ skeleton_connections self →
         c.1 ∈ dom (joints self) ∧ c.2 ∈ dom (joints self).

(** [s] differs from [self] at most in the positions of the joints in [K]. *)
Definition agree_off (K : gset string) (self s : StickFigure Qc) : Prop :=
  skeleton_connections s = skeleton_connections self
  ∧ dom (joints s) = dom (joints self)
  ∧ ∀ k, k ∉ K → joints s !! k = joints self !! k.

(** The joints whose positions [animate_walk] captures and restores. *)
Definition walk_joints : gset string :=
  {[ "left_knee"; "left_ankle"; "right_knee"; "right_ankle";
     "left_elbow"; "left_wrist"; "right_elbow"; "right_wrist" ]}.

(** Every joint with a lower bound is at or above it. *)
Definition above_floor (s : PhysicsSimulator) : Prop :=
  ∀ k c (lo : Qc),
    constraints s !! k = Some c → c !! "y_min" = Some lo →
    ∃ x y : Qc, joints (sf s) !! k = Some (x, y) ∧ (lo ≤ y)%Qc.

(** ** Concrete inputs of the examples *)

(** The animation is shown, plays frame [0], and is interrupted from the
    keyboard. *)
Definition interrupted : playback := mkPlayback [0%Z] (Some KeyboardInterrupt).

(** The animation plays its first three frames and the window is closed. *)
Definition closed_early : playback := mkPlayback [0%Z; 1%Z; 2%Z] None.

(** A record whose coordinates are not numbers. *)
Definition non_numeric_record : json :=
  JObj (<["joints" :=
          JObj (<["head" := JObj (<["x" := JStr "left"]> (<["y" := JNull]> ∅))]> ∅)]>
       (<["connections" := JArr []]> ∅)).

(** A record that names a joint the skeleton does not have. *)
Definition tail_record : json :=
  JObj (<["joints" :=
          JObj (<["tail" := joint_record (lit 0, lit (-0.1))]> ∅)]>
       (<["connections" := JArr []]> ∅)).

(** A record whose only joint entry has no ['y']. *)
Definition no_y_record : json :=
  JObj (<["joints" := JObj (<["head" := JObj (<["x" := JNum (lit 0)]> ∅)]> ∅)]> ∅).

(** The pose with both arms raised, from [demo_pose_sequence]. *)
Definition arms_raised : pose :=
  <["right_elbow" := (lit 0.4, lit 1.3)]> (
  <["right_wrist" := (lit 0.4, lit 1.6)]> (
  <["left_elbow" := (lit (-0.4), lit 1.3)]> (
  <["left_wrist" := (lit (-0.4), lit 1.6)]> default_joints))).

(** A pose with one joint more than the fifteen of the skeleton. *)
Definition with_tail : pose := <["tail" := (lit 0, lit (-0.1))]> default_joints.


(** The simulator of the default figure after
    [physics.constraints['head'] = {'y_min': 2.0, 'y_max': 1.0}]: the bounds
    of the head are crossed, [y_min] above [y_max]. *)
Definition crossed_bounds : PhysicsSimulator :=
  mkPhysicsSimulator new_StickFigure (lit (-0.02))
    ((λ _, (lit 0, lit 0)) <$> joints new_StickFigure)
    (<["head" := <["y_min" := lit 2.0]> (<["y_max" := lit 1.0]> ∅)]>
       _build_constraints).

(** ** More of the code: runs of updates, keyframe playback, the drop *)

(** Every bone joins two joints that exist. *)
Definition bones_ok (self : StickFigure Qc) : Prop :=
  ∀ c, c ∈ skeleton_connections self →
       c.1 ∈ dom (joints self) ∧ c.2 ∈ dom (joints self).

(** A run of [update_joint] calls, one after the other, as
    [demo_static_poses] and [demo_multiple_figures] make them. *)
Definition apply_updates (updates : list (string * (Qc * Qc)))
    (self : StickFigure Qc) : StickFigure Qc :=
  foldl (λ s u, update_joint u.1 u.2 s) self updates.

(** The updates of the squatting pose of [demo_static_poses]. *)
Definition squat_updates : list (string * (Qc * Qc)) := [
  ("left_hip", (lit (-0.2), lit 0.3));
  ("right_hip", (lit 0.2, lit 0.3));
  ("spine_mid", (lit 0, lit 0.6));
  ("left_knee", (lit (-0.3), lit (-0.1)));
  ("right_knee", (lit 0.3, lit (-0.1)));
  ("neck", (lit 0, lit 1.0));
  ("left_shoulder", (lit (-0.3), lit 0.9));
  ("right_shoulder", (lit 0.3, lit 0.9))
].

(** The joints that a frame of the walk moves (the elbows are captured and
    restored, but no frame writes them). *)
Definition walk_moved : gset string :=
  {[ "left_knee"; "left_ankle"; "right_knee"; "right_ankle";
     "left_wrist"; "right_wrist" ]}.

(** The default figure after [del sf.joints['left_elbow']]. *)
Definition without_left_elbow : StickFigure Qc :=
  mkStickFigure (delete "left_elbow" default_joints) default_connections.

(** *** Keyframe playback ([advanced_examples.py], [PoseSequence]) *)

Record PoseSequence : Type := mkPoseSequence {
  poses : list pose;
  timings : list Qc
}.

(** [PoseSequence()] *)
Definition new_PoseSequence : PoseSequence := mkPoseSequence [] [].

(** [add_pose]: the pose passed is copied, so the sequence holds its value
    at the time of the call. *)
Definition add_pose (joints_dict : pose) (duration : Qc) (self : PoseSequence)
    : PoseSequence :=
  mkPoseSequence (poses self ++ [joints_dict]) (timings self ++ [duration]).

(** [a / b] on two Python numbers. *)
Definition num_div (a b : Qc) : result Qc :=
  if decide (b = 0) then Raise ZeroDivisionError else Ok (a / b).

(** [l[i]] on a list.  The one use below is guarded by
    [i + 1 < len(self.poses)], so its [IndexError] is never raised. *)
Definition index {A : Type} (l : list A) (i : nat) : result A :=
  match l !! i with
  | Some a => Ok a
  | None => Raise (ExternalError "IndexError")
  end.

(** [sum(l)] *)
Definition py_sum (l : list Qc) : Qc := foldl Qcplus 0 l.

(** [int(q)]: the integer part, rounded towards zero. *)
Definition py_int (q : Qc) : Z :=
  if bool_decide (0 ≤ q) then Qfloor q else Qceiling q.

(** The [for i, duration in enumerate(self.timings)] loop of the frame
    callback of [play], up to its [break]: the index, the cumulative time
    before it and the duration of the first keyframe whose end is not before
    [elapsed], if there is one. *)
Fixpoint find_segment (durations : list Qc) (i : nat) (elapsed cumulative : Qc)
    : option (nat * Qc * Qc) :=
  match durations with
  | [] => None
  | duration :: rest =>
      if bool_decide (elapsed ≤ cumulative + duration)
      then Some (i, cumulative, duration)
      else find_segment rest (S i) elapsed (cumulative + duration)
  end.

(** The nested [update(frame)] of [play], on the figure [sf] of [play]. *)
Definition play_update (self : PoseSequence) (fps : Z) (frame : Z)
    : M (StickFigure Qc) unit :=
  elapsed ← lift (true_div frame fps);
  match find_segment (timings self) 0 elapsed 0 with
  | Some (i, cumulative, duration) =>
      if bool_decide (i + 1 < length (poses self))%nat then
        t ← lift (num_div (elapsed - cumulative) duration);
        pose_i ← lift (index (poses self) i);
        pose_next ← lift (index (poses self) (i + 1));
        interpolated ← lift (interpolate pose_i pose_next t);
        modify (λ sf, mkStickFigure interpolated (skeleton_connections sf))
      else mret tt
  | None => mret tt
  end ;;
  plot_skeleton.

(** [total_frames] of [play]. *)
Definition total_frames (self : PoseSequence) (fps : Z) : Z :=
  py_int (py_sum (timings self) * Qc_of_Z fps).

(** [play], as a run of the frame callback on its own fresh figure; the
    result is what the call leaves in that figure. *)
Definition play (self : PoseSequence) (fps : Z) (run : playback)
    : StickFigure Qc * result unit :=
  (interval ← lift (true_div 1000 fps);
   for_each (played run) (play_update self fps) ;;
   finish run) new_StickFigure.

(** The squat of [demo_pose_sequence]. *)
Definition squat : pose :=
  <["right_knee" := (lit 0.3, lit (-0.1))]> (
  <["left_knee" := (lit (-0.3), lit (-0.1))]> (
  <["spine_mid" := (lit 0, lit 0.6)]> (
  <["right_hip" := (lit 0.2, lit 0.3)]> (
  <["left_hip" := (lit (-0.2), lit 0.3)]> default_joints)))).

(** The sequence of [demo_pose_sequence]. *)
Definition demo_sequence : PoseSequence :=
  add_pose default_joints (lit 1.0) (
  add_pose squat (lit 1.5) (
  add_pose arms_raised (lit 1.5) (
  add_pose default_joints (lit 1.0) new_PoseSequence))).

(** A sequence whose first keyframe has no duration. *)
Definition zero_first_sequence : PoseSequence :=
  add_pose arms_raised (lit 1.0) (
  add_pose default_joints (lit 0) new_PoseSequence).

(** *** The drop ([advanced_examples.py], [PhysicsSimulator.drop_animation]) *)

(** A method of the figure, called on the figure of the simulator. *)
Definition on_sf {A : Type} (m : M (StickFigure Qc) A) : M PhysicsSimulator A :=
  λ self,
    let '(figure, r) := m (sf self) in
    (mkPhysicsSimulator figure (gravity self) (velocities self)
       (constraints self), r).

(** The body of the loop that lifts the figure before the drop. *)
Definition raise_joint (joint_name : string) (pos : Qc * Qc)
    : M PhysicsSimulator unit :=
  modify (set_position joint_name (pos.1, pos.2 + lit 1.0)).

(** The nested [update(frame)] of [drop_animation]. *)
Definition drop_frame (frame : Z) : M PhysicsSimulator unit :=
  update ;; on_sf plot_skeleton.

(** [drop_animation]; as for the animators of the figure, the frames that
    the animation library plays and the exception that may escape the
    display are given by [run]. *)
Definition drop_animation (run : playback) : M PhysicsSimulator unit :=
  self ← get;
  for_each (items (joints (sf self))) (λ e, raise_joint e.1 e.2) ;;
  for_each (played run) drop_frame ;;
  match escaped run with
  | Some e => raise e
  | None => mret tt
  end.

(** Every joint with an upper bound is at or below it. *)
Definition below_ceiling (s : PhysicsSimulator) : Prop :=
  ∀ k c (hi : Qc),
    constraints s !! k = Some c → c !! "y_max" = Some hi →
    ∃ x y : Qc, joints (sf s) !! k = Some (x, y) ∧ y ≤ hi.

(** The default figure after [del sf.joints['head']]. *)
Definition without_head : StickFigure Qc :=
  mkStickFigure (delete "head" default_joints) default_connections.

(** * Proofs *)

(** ** Dicts and loops *)

Lemma elem_of_keys {V : Type} (d : gmap string V) (k : string) :
  k ∈ keys d ↔ is_Some (d !! k).
Proof.
  unfold keys. rewrite list_elem_of_fmap. split.
  - intros [[k' v] [-> Hin]]. apply elem_of_map_to_list in Hin. eauto.
  - intros [v Hv]. exists (k, v). split; [done|]. by apply elem_of_map_to_list.
Qed.

Lemma NoDup_keys {V : Type} (d : gmap string V) : NoDup (keys d).
Proof. apply NoDup_fst_map_to_list. Qed.

Lemma getitem_Some {V : Type} (d : gmap string V) k v :
  d !! k = Some v → getitem d k = Ok v.
Proof. unfold getitem. by intros ->. Qed.

Lemma getitem_None {V : Type} (d : gmap string V) k :
  d !! k = None → getitem d k = Raise (KeyError k).
Proof. unfold getitem. by intros ->. Qed.

(** *** Proofs about the interpolator *)

Lemma interpolate_loop_ok (A B : pose) (t : Qc) (names : list string) :
  ∀ acc : pose,
    (∀ k, k ∈ names → is_Some (A !! k) ∧ is_Some (B !! k)) →
    ∃ r : pose,
      interpolate_loop names A B t acc = Ok r ∧
      ∀ k, r !! k = if decide (k ∈ names) then blend A B t !! k else acc !! k.
Proof.
  induction names as [|n rest IH]; intros acc Hin.
  - exists acc. split; [done|]. intros k.
    destruct (decide (k ∈ [])) as [H|_]; [by apply elem_of_nil in H|done].
  - destruct (Hin n) as [[[x1 y1] HA] [[x2 y2] HB]]; [left|].
    cbn [interpolate_loop]. rewrite (getitem_Some _ _ _ HA), (getitem_Some _ _ _ HB).
    cbn. edestruct IH as (r & Hr & Hlook).
    { intros k Hk. apply Hin. by right. }
    exists r. split; [exact Hr|]. intros k. rewrite Hlook.
    assert (Hn : blend A B t !! n = Some (x1 + (x2 - x1) * t, y1 + (y2 - y1) * t)).
    { unfold blend. rewrite map_lookup_zip_with, HA, HB. done. }
    destruct (decide (k ∈ rest)) as [Hk|Hk].
    + rewrite decide_True; [done|by right].
    + destruct (decide (k = n)) as [->|Hne].
      * rewrite decide_True by left. by rewrite lookup_insert_eq.
      * rewrite decide_False.
        { by rewrite lookup_insert_ne. }
        intros [?|?]%elem_of_cons; done.
Qed.

Lemma interpolate_ok (A B : pose) (t : Qc) :
  dom A ⊆ dom B → interpolate A B t = Ok (blend A B t).
Proof.
  intros Hsub. unfold interpolate.
  destruct (interpolate_loop_ok A B t (keys A) ∅) as (r & Hr & Hlook).
  { intros k Hk%elem_of_keys. split; [done|].
    apply elem_of_dom, Hsub, elem_of_dom, Hk. }
  rewrite Hr. f_equal. apply map_eq. intros k. rewrite Hlook.
  destruct (decide (k ∈ keys A)) as [|Hk]; [done|].
  rewrite lookup_empty. unfold blend. rewrite map_lookup_zip_with.
  destruct (A !! k) eqn:HA; [|done].
  exfalso. apply Hk, elem_of_keys. eauto.
Qed.

Lemma interpolate_loop_raise (A B : pose) (t : Qc) (names : list string) :
  ∀ acc : pose,
    (∀ k, k ∈ names → is_Some (A !! k)) →
    (∃ k, k ∈ names ∧ B !! k = None) →
    ∃ k, k ∈ names ∧ B !! k = None ∧
         interpolate_loop names A B t acc = Raise (KeyError k).
Proof.
  induction names as [|n rest IH]; intros acc HA (k0 & Hk0 & HB0).
  - by apply elem_of_nil in Hk0.
  - destruct (HA n) as [[x1 y1] HAn]; [left|].
    cbn [interpolate_loop]. rewrite (getitem_Some _ _ _ HAn).
    destruct (B !! n) as [[x2 y2]|] eqn:HBn.
    + rewrite (getitem_Some _ _ _ HBn). cbn.
      edestruct IH as (k & Hk & HBk & Hr).
      { intros k Hk. apply HA. by right. }
      { exists k0. split; [|done].
        apply elem_of_cons in Hk0 as [->|?]; [congruence|done]. }
      exists k. split; [by right|]. split; [done|exact Hr].
    + rewrite (getitem_None _ _ HBn). exists n. split; [left|done].
Qed.

Lemma dom_blend (A B : pose) (t : Qc) : dom (blend A B t) = dom A ∩ dom B.
Proof.
  apply set_eq. intros k. rewrite elem_of_intersection, !elem_of_dom.
  unfold blend. rewrite map_lookup_zip_with.
  destruct (A !! k), (B !! k); cbn; split; try done;
    intros [[? ?] [? ?]]; done.
Qed.

Lemma interpolate_loop_dom (A B : pose) (t : Qc) (names : list string) :
  ∀ acc r : pose,
    interpolate_loop names A B t acc = Ok r →
    dom r = dom acc ∪ list_to_set names.
Proof.
  induction names as [|n rest IH]; intros acc r Hr; cbn in Hr.
  - inversion Hr; subst. set_solver.
  - destruct (getitem A n) as [[x1 y1]|]; [|done].
    destruct (getitem B n) as [[x2 y2]|]; [|done]. cbn in Hr.
    apply IH in Hr. rewrite Hr, dom_insert_L. set_solver.
Qed.

Lemma interpolate_dom (A B r : pose) (t : Qc) :
  interpolate A B t = Ok r → dom r = dom A.
Proof.
  intros Hr%interpolate_loop_dom. rewrite Hr, dom_empty_L.
  apply set_eq. intros k.
  rewrite elem_of_union, elem_of_list_to_set, elem_of_keys, elem_of_dom.
  set_solver.
Qed.





(** ** Claims about the pose interpolator *)

(** *** The interpolator with the operations left open *)

Lemma interpolate_loop_in_exact (names : list string) (A B : pose) (t : Qc) :
  ∀ interpolated,
    interpolate_loop_in Qcplus Qcminus Qcmult names A B t interpolated
    = interpolate_loop names A B t interpolated.
Proof.
  induction names as [|k rest IH]; intros acc; [done|].
  cbn [interpolate_loop_in interpolate_loop].
  destruct (getitem A k) as [[x1 y1]|e]; [|done]. cbn.
  destruct (getitem B k) as [[x2 y2]|e]; [|done]. cbn. apply IH.
Qed.

Lemma interpolate_in_exact (A B : pose) (t : Qc) :
  interpolate_in Qcplus Qcminus Qcmult A B t = interpolate A B t.
Proof. apply interpolate_loop_in_exact. Qed.

Section InterpolateInProofs.
Context {N : Type} (add sub mul : N → N → N).



End InterpolateInProofs.




(** C6, as stated, fails: the two key sets differ, and [interpolate] returns
    a pose. *)
Lemma interpolate_mismatch_returns :
  dom default_joints ≠ dom with_tail
  ∧ interpolate default_joints with_tail (lit 0.5)
    = Ok (blend default_joints with_tail (lit 0.5)).
Proof.
  split.
  - intros H. assert (Hin : "tail" ∈ dom with_tail).
    { unfold with_tail. rewrite dom_insert_L.
      apply elem_of_union_l, elem_of_singleton. reflexivity. }
    rewrite <- H in Hin. revert Hin. apply not_elem_of_dom. reflexivity.
  - apply interpolate_ok. unfold with_tail. rewrite dom_insert_L.
    apply union_subseteq_r.
Qed.

(** C6, amended.  When the first pose has a joint name that the second
    lacks, [interpolate] raises [KeyError] for such a name and returns no
    pose. *)
Theorem interpolate_missing_key_raises (A B : pose) (t : Qc) :
  (∃ k, k ∈ dom A ∧ k ∉ dom B) →
  ∃ k, k ∈ dom A ∧ (k ∉ dom B) ∧ interpolate A B t = Raise (KeyError k).
Proof.
  intros (k0 & HA0 & HB0).
  destruct (interpolate_loop_raise A B t (keys A) ∅) as (k & Hk & HBk & Hr).
  - by intros k Hk%elem_of_keys.
  - exists k0. split; [by apply elem_of_keys, elem_of_dom|].
    by apply not_elem_of_dom.
  - exists k. split; [by apply elem_of_dom, elem_of_keys|].
    split; [by apply not_elem_of_dom|exact Hr].
Qed.

Lemma interpolate_missing_key_raises_witness :
  ∃ k, k ∈ dom with_tail ∧ (k ∉ dom default_joints)
       ∧ interpolate with_tail default_joints (lit 0.5) = Raise (KeyError k).
Proof.
  apply (interpolate_missing_key_raises with_tail default_joints (lit 0.5)).
  exists "tail". split.
  - unfold with_tail. rewrite dom_insert_L.
    apply elem_of_union_l, elem_of_singleton. reflexivity.
  - apply not_elem_of_dom. reflexivity.
Defined.

(** C10.  Whenever [interpolate] returns a pose, its joint names are exactly
    those of the first pose; and it does return one whenever the second pose
    has at least the names of the first, so names that only the second pose
    has raise nothing and are left out of the result. *)
Theorem interpolate_keys_of_first (A B : pose) (t : Qc) :
  (∀ r, interpolate A B t = Ok r → dom r = dom A)
  ∧ (dom A ⊆ dom B →
     ∃ r, interpolate A B t = Ok r ∧ dom r = dom A
          ∧ ∀ k, k ∉ dom A → r !! k = None).
Proof.
  split.
  - intros r. apply interpolate_dom.
  - intros Hsub. exists (blend A B t). split; [by apply interpolate_ok|].
    assert (Hd : dom (blend A B t) = dom A) by (rewrite dom_blend; set_solver).
    split; [done|]. intros k Hk. apply not_elem_of_dom. by rewrite Hd.
Qed.

Lemma interpolate_keys_of_first_witness :
  dom default_joints ⊂ dom with_tail
  ∧ ∃ r, interpolate default_joints with_tail (lit 0.5) = Ok r
         ∧ dom r = dom default_joints
         ∧ ∀ k, k ∉ dom default_joints → r !! k = None.
Proof.
  assert (Hsub : dom default_joints ⊆ dom with_tail).
  { unfold with_tail. rewrite dom_insert_L. apply union_subseteq_r. }
  split.
  - split; [exact Hsub|]. intros H.
    assert (Hin : "tail" ∈ dom with_tail).
    { unfold with_tail. rewrite dom_insert_L.
      apply elem_of_union_l, elem_of_singleton. reflexivity. }
    apply H in Hin. revert Hin. apply not_elem_of_dom. reflexivity.
  - exact (proj2 (interpolate_keys_of_first default_joints with_tail (lit 0.5))
                 Hsub).
Defined.

(** ** The pose serializer *)

Lemma entry_position_Some (coords : json) (x y : json) :
  entry_position coords = Some (x, y) →
  json_getitem coords "x" = Ok x ∧ json_getitem coords "y" = Ok y.
Proof.
  destruct coords as [| | | | |fields]; try done. cbn.
  unfold getitem.
  destruct (fields !! "x"); [|done]. destruct (fields !! "y"); [|done].
  by intros [= -> ->].
Qed.

Lemma load_loop_ok (entries : list (string * json)) :
  NoDup entries.*1 →
  (∀ e, e ∈ entries → is_Some (entry_position e.2)) →
  ∀ sf : StickFigure json,
    ∃ sf', load_loop entries sf = Ok sf'
      ∧ skeleton_connections sf' = skeleton_connections sf
      ∧ ∀ k, joints sf' !! k =
               match (list_to_map entries : gmap string json) !! k with
               | Some coords => entry_position coords
               | None => joints sf !! k
               end.
Proof.
  induction entries as [|[n c] rest IH]; intros Hnd Hwf sf.
  - exists sf. split; [done|]. split; [done|]. intros k. cbn.
    by rewrite lookup_empty.
  - apply NoDup_cons in Hnd as [Hn Hnd].
    destruct (Hwf (n, c)) as [[x y] Hc]; [left|]. cbn in Hc.
    destruct (entry_position_Some _ _ _ Hc) as [Hx Hy].
    cbn [load_loop]. rewrite Hx, Hy. cbn.
    edestruct IH as (sf' & Hload & Hconn & Hlook); [done| |].
    { intros e He. apply Hwf. by right. }
    exists sf'. split; [exact Hload|]. split; [by rewrite Hconn|].
    intros k. rewrite Hlook. cbn.
    destruct (decide (k = n)) as [->|Hne].
    + rewrite lookup_insert_eq.
      rewrite (not_elem_of_list_to_map_1 rest n) by done.
      by rewrite lookup_insert_eq.
    + rewrite !lookup_insert_ne by done. done.
Qed.

Lemma load_loop_raise (entries : list (string * json)) :
  (∃ e, e ∈ entries ∧ entry_position e.2 = None) →
  ∀ sf : StickFigure json,
    ∃ ex, load_loop entries sf = Raise ex
      ∧ (ex = KeyError "x" ∨ ex = KeyError "y" ∨ ex = TypeError).
Proof.
  induction entries as [|[n c] rest IH]; intros (e & He & Hbad) sf.
  - by apply elem_of_nil in He.
  - cbn [load_loop].
    destruct c as [| | | | |fields];
      try (exists TypeError; split; [done|by auto]).
    cbn. unfold getitem.
    destruct (fields !! "x") as [x|] eqn:Hx; cbn;
      [|exists (KeyError "x"); split; [done|by auto]].
    destruct (fields !! "y") as [y|] eqn:Hy; cbn;
      [|exists (KeyError "y"); split; [done|by auto]].
    apply IH. exists e. split; [|done].
    apply elem_of_cons in He as [->|?]; [|done].
    cbn in Hbad. by rewrite Hx, Hy in Hbad.
Qed.

(** What [load_pose] returns for a record all of whose joint entries have an
    ['x'] and a ['y']: the default figure, overwritten (and extended) with
    the positions of the record. *)
Lemma load_pose_ok (filename : string) (fs : files)
    (data entries : gmap string json) :
  fs !! filename = Some (JObj data) →
  data !! "joints" = Some (JObj entries) →
  (∀ name coords, entries !! name = Some coords → is_Some (entry_position coords)) →
  load_pose filename fs
  = Ok (mkStickFigure (omap entry_position entries ∪ joints new_StickFigure_json)
                      default_connections).
Proof.
  intros Hfile Hjoints Hwf. unfold load_pose, read_json. rewrite Hfile. cbn.
  rewrite (getitem_Some _ _ _ Hjoints). cbn.
  destruct (load_loop_ok (items entries)) with (sf := new_StickFigure_json)
    as (sf' & Hload & Hconn & Hlook).
  { apply NoDup_fst_map_to_list. }
  { intros [n c] He. apply elem_of_map_to_list in He. eauto. }
  rewrite Hload. f_equal. destruct sf' as [j conns]. cbn in *. subst conns.
  f_equal. apply map_eq. intros k. rewrite Hlook.
  unfold items. rewrite list_to_map_to_list, lookup_union, lookup_omap.
  destruct (entries !! k) as [c|] eqn:Hk; cbn.
  - destruct (Hwf _ _ Hk) as [p ->]. by rewrite union_Some_l.
  - by rewrite (left_id None _).
Qed.

Lemma load_pose_raise (filename : string) (fs : files)
    (data entries : gmap string json) :
  fs !! filename = Some (JObj data) →
  data !! "joints" = Some (JObj entries) →
  (∃ name coords, entries !! name = Some coords ∧ entry_position coords = None) →
  ∃ ex, load_pose filename fs = Raise ex
    ∧ (ex = KeyError "x" ∨ ex = KeyError "y" ∨ ex = TypeError).
Proof.
  intros Hfile Hjoints (name & coords & Hk & Hbad).
  unfold load_pose, read_json. rewrite Hfile. cbn.
  rewrite (getitem_Some _ _ _ Hjoints). cbn.
  apply load_loop_raise. exists (name, coords). split; [|done].
  by apply elem_of_map_to_list.
Qed.

Lemma entry_position_joint_record (pos : Qc * Qc) :
  entry_position (joint_record pos) = Some (JNum pos.1, JNum pos.2).
Proof. reflexivity. Qed.

(** C1.  Saving a valid pose and loading the saved file gives back a figure
    whose joints are exactly the joints of the pose, each with the same [x]
    and [y]: nothing is lost and no default shows through.  (Equal numbers are
    in particular within any tolerance of one another; the decimal text of a
    number in the file is the business of the JSON library.) *)
Theorem load_save_round_trip (P : pose) (connections : list (string * string))
    (filename : string) (fs : files) :
  valid_pose P →
  ∃ loaded,
    load_pose filename (save_pose (mkStickFigure P connections) filename fs)
    = Ok loaded
    ∧ dom (joints loaded) = dom P
    ∧ ∀ k x y, P !! k = Some (x, y) ↔ joints loaded !! k = Some (JNum x, JNum y).
Proof.
  intros Hvalid.
  eexists. split.
  { eapply load_pose_ok.
    - unfold save_pose. apply lookup_insert_eq.
    - reflexivity.
    - intros name coords [pos [<- _]]%lookup_fmap_Some.
      rewrite entry_position_joint_record. eauto. }
  cbn [joints new_StickFigure_json new_StickFigure].
  assert (Hlook : ∀ k,
    (omap entry_position (joint_record <$> P)
       ∪ (prod_map JNum JNum <$> default_joints)) !! k
    = prod_map JNum JNum <$> P !! k).
  { intros k. rewrite lookup_union, lookup_omap, !lookup_fmap.
    destruct (P !! k) as [[x y]|] eqn:HP;
      cbn [fmap option_fmap option_map mbind option_bind].
    - rewrite entry_position_joint_record. by rewrite union_Some_l.
    - rewrite (left_id None _).
      assert (Hk : k ∉ dom default_joints).
      { fold joint_names. rewrite <- Hvalid. by apply not_elem_of_dom. }
      apply not_elem_of_dom in Hk. by rewrite Hk. }
  split.
  - apply set_eq. intros k. rewrite !elem_of_dom, Hlook.
    by rewrite fmap_is_Some.
  - intros k x y. rewrite Hlook. destruct (P !! k) as [[x' y']|]; cbn.
    + split; intros [= -> ->]; done.
    + split; intros [=].
Qed.

Lemma load_save_round_trip_witness :
  ∃ loaded,
    load_pose "custom_pose.json"
      (save_pose (mkStickFigure arms_raised default_connections)
                 "custom_pose.json" ∅)
    = Ok loaded
    ∧ dom (joints loaded) = dom arms_raised
    ∧ ∀ k x y, arms_raised !! k = Some (x, y)
               ↔ joints loaded !! k = Some (JNum x, JNum y).
Proof.
  apply (load_save_round_trip arms_raised default_connections
           "custom_pose.json" ∅).
  reflexivity.
Defined.

(** C7, as stated, fails: the coordinates of this record are a string and a
    null, and [load_pose] returns a figure that holds them. *)
Lemma load_non_numeric_returns :
  load_pose "pose.json" (<["pose.json" := non_numeric_record]> ∅)
  = Ok (setitem_joint "head" (JStr "left", JNull) new_StickFigure_json).
Proof. vm_compute. reflexivity. Qed.

(** C7, amended.  A record without ['joints'] makes [load_pose] raise
    [KeyError]; a record one of whose joint entries is not an object with
    both an ['x'] and a ['y'] makes it raise [KeyError] or [TypeError]; no
    figure is returned in either case.  When every joint entry has an ['x']
    and a ['y'], of whatever type, [load_pose] returns the default figure
    overwritten with the values of the record, as they are. *)
Theorem load_malformed_raises (filename : string) (fs : files)
    (data : gmap string json) :
  fs !! filename = Some (JObj data) →
  (data !! "joints" = None →
     load_pose filename fs = Raise (KeyError "joints"))
  ∧ (∀ entries : gmap string json,
       data !! "joints" = Some (JObj entries) →
       (∃ name coords,
           entries !! name = Some coords ∧ entry_position coords = None) →
       ∃ ex, load_pose filename fs = Raise ex
             ∧ (ex = KeyError "x" ∨ ex = KeyError "y" ∨ ex = TypeError))
  ∧ (∀ entries : gmap string json,
       data !! "joints" = Some (JObj entries) →
       (∀ name coords,
           entries !! name = Some coords → is_Some (entry_position coords)) →
       load_pose filename fs
       = Ok (mkStickFigure
               (omap entry_position entries ∪ joints new_StickFigure_json)
               default_connections)).
Proof.
  intros Hfile. split; [|split].
  - intros Hnone. unfold load_pose, read_json. rewrite Hfile. cbn.
    by rewrite (getitem_None _ _ Hnone).
  - intros entries Hj Hbad. by eapply load_pose_raise.
  - intros entries Hj Hwf. by eapply load_pose_ok.
Qed.

Lemma load_malformed_raises_witness :
  ∃ ex, load_pose "pose.json" (<["pose.json" := no_y_record]> ∅) = Raise ex
        ∧ (ex = KeyError "x" ∨ ex = KeyError "y" ∨ ex = TypeError).
Proof.
  refine (proj1 (proj2 (load_malformed_raises "pose.json"
            (<["pose.json" := no_y_record]> ∅) _ _)) _ _ _).
  - vm_compute. reflexivity.
  - vm_compute. reflexivity.
  - exists "head", (JObj (<["x" := JNum (lit 0)]> ∅)).
    split; vm_compute; reflexivity.
Defined.

(** C8, at the input on which the loader breaks it: the record names a joint
    ["tail"]; the figure returned has the fifteen joints and ["tail"]. *)
Theorem load_pose_adds_joint :
  ∃ loaded,
    load_pose "pose.json" (<["pose.json" := tail_record]> ∅) = Ok loaded
    ∧ dom (joints new_StickFigure) = joint_names
    ∧ dom (joints loaded) = {["tail"]} ∪ joint_names
    ∧ "tail" ∉ joint_names.
Proof.
  exists (setitem_joint "tail" (JNum (lit 0), JNum (lit (-0.1)))
            new_StickFigure_json).
  split; [vm_compute; reflexivity|]. split; [reflexivity|]. split.
  - cbn [setitem_joint joints new_StickFigure_json new_StickFigure].
    by rewrite dom_insert_L, dom_fmap_L.
  - apply not_elem_of_dom. reflexivity.
Qed.

(** ** The state and exception monad *)

Lemma run_bind {S A B : Type} (m : M S A) (f : A → M S B) (s : S) :
  (m ≫= f) s = match m s with
               | (s', Ok a) => f a s'
               | (s', Raise e) => (s', Raise e)
               end.
Proof. reflexivity. Qed.

(** Run the next binds of a monadic program on the state at hand. *)
Ltac mstep :=
  repeat (rewrite run_bind;
          cbv beta iota delta [lift get modify raise mret M_ret]).

(** [joints self [k]] when the lookup may fail: a missing joint makes the
    goal's result a [KeyError], which [done] refutes against [Ok]. *)
Ltac capture k v H :=
  match goal with
  | |- context [getitem (joints ?s) k] =>
      destruct (joints s !! k) as [v|] eqn:H;
      [rewrite (getitem_Some _ _ _ H)|by rewrite (getitem_None _ _ H)];
      mstep
  end.

(** [joints self [k]] when [Hin] says the joint is there. *)
Ltac present Hin k v :=
  let H := fresh "H" in
  destruct (Hin k) as [v H];
  [unfold walk_joints; rewrite !elem_of_union, !elem_of_singleton; tauto|];
  rewrite (getitem_Some _ _ _ H); mstep.

Lemma for_each_inv {S A : Type} (I : S → Prop) (l : list A) (body : A → M S unit) :
  (∀ a s, a ∈ l → I s → I (body a s).1) →
  ∀ s, I s → I (for_each l body s).1.
Proof.
  induction l as [|a rest IH]; intros Hbody s Hs; [done|].
  cbn [for_each]. rewrite run_bind.
  assert (H1 : I (body a s).1) by (apply Hbody; [left|done]).
  destruct (body a s) as [s1 [[]|e]]; cbn in *; [|done].
  apply IH; [|done]. intros a' s' Ha'. apply Hbody. by right.
Qed.

Lemma for_each_ok {S A : Type} (I : S → Prop) (l : list A) (body : A → M S unit) :
  (∀ a s, a ∈ l → I s → I (body a s).1 ∧ (body a s).2 = Ok tt) →
  ∀ s, I s → (for_each l body s).2 = Ok tt.
Proof.
  induction l as [|a rest IH]; intros Hbody s Hs; [done|].
  cbn [for_each]. rewrite run_bind.
  destruct (Hbody a s) as [H1 H2]; [left|done|].
  destruct (body a s) as [s1 [[]|e]]; cbn in *; [|done].
  apply IH; [|done]. intros a' s' Ha'. apply Hbody. by right.
Qed.

(** ** The skeleton model and the animator *)

Lemma agree_off_refl (K : gset string) (self : StickFigure Qc) :
  agree_off K self self.
Proof. done. Qed.

Lemma update_joint_dom {V : Type} (name : string) (pos : V * V)
    (self : StickFigure V) :
  dom (joints (update_joint name pos self)) = dom (joints self).
Proof.
  unfold update_joint. case_decide as Hin; [|done].
  cbn. rewrite dom_insert_L. set_solver.
Qed.

Lemma update_joint_lookup {V : Type} (name : string) (pos : V * V)
    (self : StickFigure V) :
  name ∈ dom (joints self) →
  joints (update_joint name pos self) !! name = Some pos.
Proof.
  intros Hin. unfold update_joint. rewrite decide_True by done.
  apply lookup_insert_eq.
Qed.

Lemma update_joint_lookup_ne {V : Type} (name k : string) (pos : V * V)
    (self : StickFigure V) :
  k ≠ name → joints (update_joint name pos self) !! k = joints self !! k.
Proof.
  intros Hne. unfold update_joint. case_decide; [|done].
  cbn. by rewrite lookup_insert_ne.
Qed.

Lemma update_joint_connections {V : Type} (name : string) (pos : V * V)
    (self : StickFigure V) :
  skeleton_connections (update_joint name pos self) = skeleton_connections self.
Proof. unfold update_joint. by case_decide. Qed.

Lemma update_joint_agree (K : gset string) (self s : StickFigure Qc)
    (name : string) (pos : Qc * Qc) :
  name ∈ K → agree_off K self s → agree_off K self (update_joint name pos s).
Proof.
  intros Hin (Hc & Hd & Hl). split; [|split].
  - by rewrite update_joint_connections.
  - by rewrite update_joint_dom.
  - intros k Hk. rewrite update_joint_lookup_ne; [by apply Hl|].
    intros ->. done.
Qed.

Lemma plot_skeleton_state (s : StickFigure Qc) : (plot_skeleton s).1 = s.
Proof.
  unfold plot_skeleton. rewrite run_bind. cbn [get].
  apply (for_each_inv (λ s', s' = s)); [|done].
  intros c s' _ ->. rewrite !run_bind. unfold lift.
  destruct (getitem (joints s) c.1) as [[x1 y1]|]; [|done].
  rewrite !run_bind.
  destruct (getitem (joints s) c.2) as [[x2 y2]|]; done.
Qed.

Lemma plot_skeleton_ok (s : StickFigure Qc) :
  (∀ c, c ∈ skeleton_connections s →
        c.1 ∈ dom (joints s) ∧ c.2 ∈ dom (joints s)) →
  (plot_skeleton s).2 = Ok tt.
Proof.
  intros Hwf. unfold plot_skeleton. rewrite run_bind. cbn [get].
  apply (for_each_ok (λ s', s' = s)); [|done].
  intros c s' Hc ->. destruct (Hwf c Hc) as [[[x1 y1] H1]%elem_of_dom [[x2 y2] H2]%elem_of_dom].
  rewrite !run_bind. unfold lift. rewrite (getitem_Some _ _ _ H1).
  rewrite !run_bind. by rewrite (getitem_Some _ _ _ H2).
Qed.

Section AnimatorProofs.
Variables (np_sin np_cos : Qc → Qc) (np_pi : Qc).

(** The figure a wave frame leaves behind. *)
Lemma wave_update_run (frames frame : Z) (oe ow : Qc * Qc) (s : StickFigure Qc) :
  frames ≠ 0%Z →
  let angle := phase np_pi (Qc_of_Z frame / Qc_of_Z frames) in
  let s' :=
    update_joint "right_wrist"
      (ow.1 + wave_wrist_x_amplitude * np_cos angle,
       ow.2 + wave_wrist_y_amplitude * np_sin angle)
      (update_joint "right_elbow"
         (oe.1, oe.2 + wave_elbow_y_amplitude * np_sin angle) s) in
  wave_update np_sin np_cos np_pi frames oe ow frame s
  = (s', (plot_skeleton s').2).
Proof.
  intros Hframes angle s'. unfold wave_update, true_div.
  rewrite decide_False by done. mstep. fold angle. fold s'.
  generalize (plot_skeleton_state s'). destruct (plot_skeleton s') as [s3 r].
  cbn. by intros ->.
Qed.

Lemma wave_update_agree (frames frame : Z) (oe ow : Qc * Qc)
    (self s : StickFigure Qc) :
  agree_off {["right_elbow"; "right_wrist"]} self s →
  agree_off {["right_elbow"; "right_wrist"]} self
    (wave_update np_sin np_cos np_pi frames oe ow frame s).1.
Proof.
  intros Hs. destruct (decide (frames = 0%Z)) as [->|Hne].
  - unfold wave_update, true_div. rewrite decide_True by done. done.
  - rewrite wave_update_run by done. cbn.
    apply update_joint_agree; [set_solver|].
    apply update_joint_agree; [set_solver|done].
Qed.

Lemma wave_update_ok (frames frame : Z) (oe ow : Qc * Qc)
    (self s : StickFigure Qc) :
  frames ≠ 0%Z → valid_figure self →
  agree_off {["right_elbow"; "right_wrist"]} self s →
  (wave_update np_sin np_cos np_pi frames oe ow frame s).2 = Ok tt.
Proof.
  intros Hne [_ Hbones] Hs. rewrite wave_update_run by done. cbn.
  apply plot_skeleton_ok. intros c.
  rewrite !update_joint_connections, !update_joint_dom.
  destruct Hs as (-> & -> & _). apply Hbones.
Qed.

Lemma animate_wave_restores (frames : Z) (run : playback) (self : StickFigure Qc) :
  (animate_wave np_sin np_cos np_pi frames run self).2 = Ok tt →
  (animate_wave np_sin np_cos np_pi frames run self).1 = self.
Proof.
  unfold animate_wave. mstep.
  destruct (joints self !! "right_elbow") as [oe|] eqn:He;
    [rewrite (getitem_Some _ _ _ He)|by rewrite (getitem_None _ _ He)].
  mstep.
  destruct (joints self !! "right_wrist") as [ow|] eqn:Hw;
    [rewrite (getitem_Some _ _ _ Hw)|by rewrite (getitem_None _ _ Hw)].
  mstep.
  pose proof (for_each_inv (agree_off {["right_elbow"; "right_wrist"]} self)
                (played run)
                (wave_update np_sin np_cos np_pi frames oe ow)) as Hloop.
  specialize (Hloop (λ a s _ Hs, wave_update_agree frames a oe ow self s Hs)
                    self (agree_off_refl _ _)).
  destruct (for_each (played run) _ self) as [s1 [[]|e]]; [|done].
  cbn in Hloop. unfold finish. destruct (escaped run); [done|].
  mstep. cbn. intros _. destruct Hloop as (Hc & Hd & Hl).
  destruct self as [j conns]. cbn in *. unfold setitem_joint. cbn.
  rewrite Hc. f_equal. apply map_eq. intros k.
  destruct (decide (k = "right_wrist")) as [->|Hk1].
  { by rewrite lookup_insert_eq. }
  rewrite lookup_insert_ne by done.
  destruct (decide (k = "right_elbow")) as [->|Hk2].
  { by rewrite lookup_insert_eq. }
  rewrite lookup_insert_ne by done. apply Hl. set_solver.
Qed.

Lemma animate_wave_returns (frames : Z) (run : playback) (self : StickFigure Qc) :
  frames ≠ 0%Z → valid_figure self → escaped run = None →
  (animate_wave np_sin np_cos np_pi frames run self).2 = Ok tt.
Proof.
  intros Hne Hvalid Hrun.
  assert (He : is_Some (joints self !! "right_elbow")).
  { apply elem_of_dom. destruct Hvalid as [-> _]. by apply elem_of_dom. }
  assert (Hw : is_Some (joints self !! "right_wrist")).
  { apply elem_of_dom. destruct Hvalid as [-> _]. by apply elem_of_dom. }
  destruct He as [oe He], Hw as [ow Hw].
  unfold animate_wave. mstep. rewrite (getitem_Some _ _ _ He). mstep.
  rewrite (getitem_Some _ _ _ Hw). mstep.
  pose proof (for_each_ok (agree_off {["right_elbow"; "right_wrist"]} self)
                (played run)
                (wave_update np_sin np_cos np_pi frames oe ow)) as Hloop.
  specialize (Hloop (λ a s _ Hs,
    conj (wave_update_agree frames a oe ow self s Hs)
         (wave_update_ok frames a oe ow self s Hne Hvalid Hs))
    self (agree_off_refl _ _)).
  destruct (for_each (played run) _ self) as [s1 [[]|e]]; [|done].
  unfold finish. rewrite Hrun. mstep. done.
Qed.
End AnimatorProofs.

(** The loop that writes the captured positions back. *)
Lemma restore_loop (l : list (string * (Qc * Qc))) :
  NoDup l.*1 →
  ∀ s : StickFigure Qc,
    for_each l (λ e, modify (setitem_joint e.1 e.2)) s
    = (mkStickFigure (list_to_map l ∪ joints s) (skeleton_connections s), Ok tt).
Proof.
  induction l as [|[k v] rest IH]; intros Hnd s.
  - cbn. rewrite (left_id ∅ _). by destruct s.
  - apply NoDup_cons in Hnd as [Hk Hnd]. cbn [for_each]. mstep.
    rewrite IH by done. cbn. f_equal. f_equal.
    cbn [list_to_map foldr uncurry]. rewrite <- insert_union_l.
    symmetry. apply insert_union_r.
    by apply not_elem_of_list_to_map_1.
Qed.

Section WalkProofs.
Variables (np_sin : Qc → Qc) (np_pi : Qc).

Lemma walk_update_agree (frames frame : Z) (op : pose)
    (self s : StickFigure Qc) :
  agree_off walk_joints self s →
  agree_off walk_joints self
    (walk_update np_sin np_pi frames op frame s).1.
Proof.
  intros Hs. unfold walk_update, true_div.
  destruct (decide (frames = 0%Z)); [done|]. mstep.
  destruct (getitem op "left_knee"); [mstep|done].
  destruct (getitem op "left_ankle"); [mstep|done].
  destruct (getitem op "right_knee"); [mstep|done].
  destruct (getitem op "right_ankle"); [mstep|done].
  destruct (getitem op "left_wrist"); [mstep|done].
  destruct (getitem op "right_wrist"); [mstep|done].
  rewrite plot_skeleton_state.
  repeat (apply update_joint_agree; [unfold walk_joints; set_solver|]).
  done.
Qed.

Lemma walk_update_ok (frames frame : Z) (op : pose)
    (self s : StickFigure Qc) :
  frames ≠ 0%Z → valid_figure self → walk_joints ⊆ dom op →
  agree_off walk_joints self s →
  (walk_update np_sin np_pi frames op frame s).2 = Ok tt.
Proof.
  intros Hne [_ Hbones] Hop Hs. unfold walk_update, true_div.
  rewrite decide_False by done. mstep.
  assert (Hget : ∀ k, k ∈ walk_joints → ∃ v, getitem op k = Ok v).
  { intros k Hk. apply Hop, elem_of_dom in Hk as [v Hv].
    exists v. by apply getitem_Some. }
  destruct (Hget "left_knee") as [? ->]; [unfold walk_joints; set_solver|]. mstep.
  destruct (Hget "left_ankle") as [? ->]; [unfold walk_joints; set_solver|]. mstep.
  destruct (Hget "right_knee") as [? ->]; [unfold walk_joints; set_solver|]. mstep.
  destruct (Hget "right_ankle") as [? ->]; [unfold walk_joints; set_solver|]. mstep.
  destruct (Hget "left_wrist") as [? ->]; [unfold walk_joints; set_solver|]. mstep.
  destruct (Hget "right_wrist") as [? ->]; [unfold walk_joints; set_solver|]. mstep.
  apply plot_skeleton_ok. intros c.
  rewrite !update_joint_connections, !update_joint_dom.
  destruct Hs as (-> & -> & _). apply Hbones.
Qed.

Lemma animate_walk_restores (frames : Z) (run : playback) (self : StickFigure Qc) :
  (animate_walk np_sin np_pi frames run self).2 = Ok tt →
  (animate_walk np_sin np_pi frames run self).1 = self.
Proof.
  unfold animate_walk. mstep.
  capture "left_knee" oLK Hlk. capture "left_ankle" oLA Hla.
  capture "right_knee" oRK Hrk. capture "right_ankle" oRA Hra.
  capture "left_elbow" oLE Hle. capture "left_wrist" oLW Hlw.
  capture "right_elbow" oRE Hre. capture "right_wrist" oRW Hrw.
  match goal with |- context [walk_update _ _ _ ?m] => set (op := m) end.
  pose proof (for_each_inv (agree_off walk_joints self) (played run)
                (walk_update np_sin np_pi frames op)) as Hloop.
  specialize (Hloop (λ a s _ Hs, walk_update_agree frames a op self s Hs)
                    self (agree_off_refl _ _)).
  destruct (for_each (played run) _ self) as [s1 [[]|e]]; [|done].
  cbn in Hloop. unfold finish. destruct (escaped run); [done|].
  mstep. rewrite restore_loop by apply NoDup_fst_map_to_list.
  cbn. intros _. destruct Hloop as (Hc & Hd & Hl).
  destruct self as [j conns]. cbn in *. rewrite Hc. f_equal.
  unfold items. rewrite list_to_map_to_list.
  apply map_eq. intros k. rewrite lookup_union.
  destruct (op !! k) as [v|] eqn:Hop.
  - rewrite union_Some_l. symmetry. revert Hop. unfold op.
    repeat (rewrite lookup_insert; case_decide;
            [subst k; intros [= <-]; done|]).
    by rewrite lookup_empty.
  - rewrite (left_id None _). apply Hl. revert Hop. unfold op.
    rewrite !lookup_insert_None. unfold walk_joints.
    rewrite !elem_of_union, !elem_of_singleton. naive_solver.
Qed.

Lemma animate_walk_returns (frames : Z) (run : playback) (self : StickFigure Qc) :
  frames ≠ 0%Z → valid_figure self → escaped run = None →
  (animate_walk np_sin np_pi frames run self).2 = Ok tt.
Proof.
  intros Hne Hvalid Hrun.
  assert (Hin : ∀ k, k ∈ walk_joints → ∃ v, joints self !! k = Some v).
  { intros k Hk. apply (elem_of_dom (joints self)).
    destruct Hvalid as [-> _]. revert Hk. unfold walk_joints.
    rewrite !elem_of_union, !elem_of_singleton.
    intros H. apply elem_of_dom.
    repeat (destruct H as [H| ->]; [|by eexists]). subst. by eexists. }
  unfold animate_walk. mstep.
  present Hin "left_knee" oLK. present Hin "left_ankle" oLA.
  present Hin "right_knee" oRK. present Hin "right_ankle" oRA.
  present Hin "left_elbow" oLE. present Hin "left_wrist" oLW.
  present Hin "right_elbow" oRE. present Hin "right_wrist" oRW.
  match goal with |- context [walk_update _ _ _ ?m] => set (op := m) end.
  assert (Hop : walk_joints ⊆ dom op).
  { unfold op. rewrite !dom_insert_L. unfold walk_joints. set_solver. }
  pose proof (for_each_ok (agree_off walk_joints self) (played run)
                (walk_update np_sin np_pi frames op)) as Hloop.
  specialize (Hloop (λ a s _ Hs,
    conj (walk_update_agree frames a op self s Hs)
         (walk_update_ok frames a op self s Hne Hvalid Hop Hs))
    self (agree_off_refl _ _)).
  destruct (for_each (played run) _ self) as [s1 [[]|e]]; [|done].
  unfold finish. rewrite Hrun. mstep.
  by rewrite restore_loop by apply NoDup_fst_map_to_list.
Qed.
End WalkProofs.

Lemma valid_new_StickFigure : valid_figure new_StickFigure.
Proof.
  split; [reflexivity|]. intros c Hc. cbn in Hc.
  repeat (apply elem_of_cons in Hc as [->|Hc];
          [split; apply elem_of_dom; eexists; reflexivity|]).
  by apply elem_of_nil in Hc.
Qed.

(** ** Claims about the procedural animator *)

(** C5, as stated, fails on the order of the amplitudes: the elbow's [0.2]
    is not below the wrist's [0.1]. *)
Lemma wave_amplitudes_not_increasing :
  wave_wrist_x_amplitude < wave_elbow_y_amplitude
  ∧ ¬ (wave_elbow_y_amplitude < wave_wrist_x_amplitude
       ∧ wave_wrist_x_amplitude < wave_wrist_y_amplitude).
Proof.
  split; [reflexivity|]. intros [H _]. revert H. apply Qcle_not_lt.
  intros H. discriminate H.
Qed.

(** C5, amended.  In a frame of the wave with phase angle [θ], the right
    elbow is put at its original [x] and at its original [y] plus
    [0.2 * sin θ], and the right wrist at its original position plus
    [(0.1 * cos θ, 0.4 * sin θ)].  The three amplitudes are [0.2], [0.1] and
    [0.4]: the wrist's sway is the smallest, the wrist's rise the largest. *)
Theorem wave_frame_offsets (np_sin np_cos : Qc → Qc) (np_pi : Qc)
    (frames frame : Z) (self : StickFigure Qc) (ex ey wx wy : Qc) :
  frames ≠ 0%Z →
  "right_elbow" ∈ dom (joints self) →
  "right_wrist" ∈ dom (joints self) →
  let θ := phase np_pi (Qc_of_Z frame / Qc_of_Z frames) in
  let after :=
    (wave_update np_sin np_cos np_pi frames (ex, ey) (wx, wy) frame self).1 in
  joints after !! "right_elbow"
    = Some (ex, ey + wave_elbow_y_amplitude * np_sin θ)
  ∧ joints after !! "right_wrist"
    = Some (wx + wave_wrist_x_amplitude * np_cos θ,
            wy + wave_wrist_y_amplitude * np_sin θ)
  ∧ wave_elbow_y_amplitude = lit 0.2
  ∧ wave_wrist_x_amplitude = lit 0.1
  ∧ wave_wrist_y_amplitude = lit 0.4
  ∧ wave_wrist_x_amplitude < wave_elbow_y_amplitude < wave_wrist_y_amplitude.
Proof.
  intros Hne He Hw θ after. subst after.
  rewrite wave_update_run by done. cbn [fst snd]. fold θ.
  split; [|split].
  - rewrite update_joint_lookup_ne by done. by apply update_joint_lookup.
  - apply update_joint_lookup. by rewrite update_joint_dom.
  - repeat split; reflexivity.
Qed.

Lemma wave_frame_offsets_witness :
  let θ := phase approx_pi (Qc_of_Z 15 / Qc_of_Z 60) in
  let after :=
    (wave_update approx_sin approx_cos approx_pi 60
       (lit 0.5, lit 0.9) (lit 0.6, lit 0.5) 15 new_StickFigure).1 in
  joints after !! "right_elbow"
    = Some (lit 0.5, lit 0.9 + wave_elbow_y_amplitude * approx_sin θ)
  ∧ joints after !! "right_wrist"
    = Some (lit 0.6 + wave_wrist_x_amplitude * approx_cos θ,
            lit 0.5 + wave_wrist_y_amplitude * approx_sin θ)
  ∧ wave_elbow_y_amplitude = lit 0.2
  ∧ wave_wrist_x_amplitude = lit 0.1
  ∧ wave_wrist_y_amplitude = lit 0.4
  ∧ wave_wrist_x_amplitude < wave_elbow_y_amplitude < wave_wrist_y_amplitude.
Proof.
  apply (wave_frame_offsets approx_sin approx_cos approx_pi 60 15
           new_StickFigure (lit 0.5) (lit 0.9) (lit 0.6) (lit 0.5)).
  - discriminate.
  - apply elem_of_dom. eexists. reflexivity.
  - apply elem_of_dom. eexists. reflexivity.
Defined.

(** C9, as stated, fails: the wave is interrupted from the keyboard after its
    first frame, the exception leaves [animate_wave], and the right wrist is
    still where the frame put it. *)
Lemma animate_wave_interrupted_not_restored :
  (animate_wave approx_sin approx_cos approx_pi 60 interrupted
     new_StickFigure).2 = Raise KeyboardInterrupt
  ∧ joints new_StickFigure !! "right_wrist" = Some (lit 0.6, lit 0.5)
  ∧ ∃ p, joints (animate_wave approx_sin approx_cos approx_pi 60 interrupted
                   new_StickFigure).1 !! "right_wrist" = Some p
         ∧ p.1 = lit 0.7 ∧ p.1 ≠ lit 0.6.
Proof.
  split; [vm_compute; reflexivity|]. split; [reflexivity|].
  eexists. split; [vm_compute; reflexivity|]. cbn [fst]. split.
  - apply Qc_is_canon. vm_compute. reflexivity.
  - intros H. apply (f_equal this) in H. vm_compute in H. discriminate H.
Qed.

(** C9, amended.  The positions of the animated joints are read once before
    the first frame and written back after the display returns.  Whenever
    the call returns, whatever frames were played before (all of them, or a
    few before the window was closed), the figure is exactly as it was before
    the call; and on a figure the plot can draw the call does return, unless
    an exception escapes the display. *)
Theorem animation_restores_on_return (np_sin np_cos : Qc → Qc) (np_pi : Qc)
    (frames : Z) (run : playback) (self : StickFigure Qc) :
  ((animate_wave np_sin np_cos np_pi frames run self).2 = Ok tt →
   (animate_wave np_sin np_cos np_pi frames run self).1 = self)
  ∧ ((animate_walk np_sin np_pi frames run self).2 = Ok tt →
     (animate_walk np_sin np_pi frames run self).1 = self)
  ∧ (frames ≠ 0%Z → valid_figure self → escaped run = None →
     animate_wave np_sin np_cos np_pi frames run self = (self, Ok tt)
     ∧ animate_walk np_sin np_pi frames run self = (self, Ok tt)).
Proof.
  split; [apply animate_wave_restores|]. split; [apply animate_walk_restores|].
  intros Hne Hvalid Hrun. split.
  - pose proof (animate_wave_returns np_sin np_cos np_pi frames run self
                  Hne Hvalid Hrun) as Hok.
    pose proof (animate_wave_restores np_sin np_cos np_pi frames run self Hok)
      as Hst.
    destruct (animate_wave _ _ _ _ _ _) as [s r]. cbn in *. by subst.
  - pose proof (animate_walk_returns np_sin np_pi frames run self
                  Hne Hvalid Hrun) as Hok.
    pose proof (animate_walk_restores np_sin np_pi frames run self Hok) as Hst.
    destruct (animate_walk _ _ _ _ _) as [s r]. cbn in *. by subst.
Qed.

Lemma animation_restores_on_return_witness :
  animate_wave approx_sin approx_cos approx_pi 60 closed_early new_StickFigure
  = (new_StickFigure, Ok tt)
  ∧ animate_walk approx_sin approx_pi 60 closed_early new_StickFigure
  = (new_StickFigure, Ok tt).
Proof.
  apply (animation_restores_on_return approx_sin approx_cos approx_pi 60
           closed_early new_StickFigure).
  - discriminate.
  - apply valid_new_StickFigure.
  - reflexivity.
Defined.

(** ** The physics toy *)

Lemma accelerate_run (k : string) (s : PhysicsSimulator) (vx vy : Qc) :
  velocities s !! k = Some (vx, vy) →
  accelerate k s = (set_velocity k (vx, vy + gravity s) s, Ok tt).
Proof.
  intros Hv. unfold accelerate. mstep. by rewrite (getitem_Some _ _ _ Hv).
Qed.

Lemma move_run (k : string) (pos : Qc * Qc) (s : PhysicsSimulator) (vx vy : Qc) :
  velocities s !! k = Some (vx, vy) →
  move k pos s = (set_position k (pos.1 + vx, pos.2 + vy) s, Ok tt).
Proof.
  intros Hv. unfold move. mstep. by rewrite (getitem_Some _ _ _ Hv).
Qed.

Lemma gravity_loop (l : list string) :
  NoDup l →
  ∀ s, (∀ k, k ∈ l → is_Some (velocities s !! k)) →
  ∃ s', for_each l accelerate s = (s', Ok tt)
    ∧ sf s' = sf s ∧ gravity s' = gravity s ∧ constraints s' = constraints s
    ∧ ∀ k, velocities s' !! k =
             if decide (k ∈ l)
             then (λ v : Qc * Qc, (v.1, v.2 + gravity s)) <$> velocities s !! k
             else velocities s !! k.
Proof.
  induction l as [|k0 rest IH]; intros Hnd s Hin.
  - exists s. repeat (split; [done|]). intros k.
    destruct (decide (k ∈ [])) as [H|_]; [by apply elem_of_nil in H|done].
  - apply NoDup_cons in Hnd as [Hk0 Hnd].
    destruct (Hin k0) as [[vx vy] Hv]; [left|].
    cbn [for_each]. mstep. rewrite (accelerate_run _ _ _ _ Hv).
    edestruct (IH Hnd (set_velocity k0 (vx, vy + gravity s) s))
      as (s' & Hrun & Hsf & Hg & Hc & Hlook).
    { intros k Hk. cbn. apply lookup_insert_is_Some'. right. apply Hin. by right. }
    exists s'. split; [exact Hrun|]. repeat split; try done.
    intros k. rewrite Hlook. cbn.
    destruct (decide (k ∈ rest)) as [Hk|Hk].
    + rewrite decide_True by (by right).
      rewrite lookup_insert_ne; [done|]. intros ->. done.
    + destruct (decide (k = k0)) as [->|Hne].
      * rewrite decide_True by left. by rewrite lookup_insert_eq, Hv.
      * rewrite decide_False; [by rewrite lookup_insert_ne|].
        intros [?|?]%elem_of_cons; done.
Qed.

Lemma move_loop (l : list (string * (Qc * Qc))) :
  NoDup l.*1 →
  ∀ s, (∀ e, e ∈ l → is_Some (velocities s !! e.1)) →
  ∃ s', for_each l (λ e, move e.1 e.2) s = (s', Ok tt)
    ∧ velocities s' = velocities s
    ∧ gravity s' = gravity s ∧ constraints s' = constraints s
    ∧ skeleton_connections (sf s') = skeleton_connections (sf s)
    ∧ ∀ k, joints (sf s') !! k =
             match (list_to_map l : pose) !! k with
             | Some pos =>
                 (λ v : Qc * Qc, (pos.1 + v.1, pos.2 + v.2)) <$> velocities s !! k
             | None => joints (sf s) !! k
             end.
Proof.
  induction l as [|[k0 pos0] rest IH]; intros Hnd s Hin.
  - exists s. repeat split; try done.
  - apply NoDup_cons in Hnd as [Hk0 Hnd].
    destruct (Hin (k0, pos0)) as [[vx vy] Hv]; [left|]. cbn in Hv.
    cbn [for_each]. mstep. cbn [fst snd]. rewrite (move_run _ _ _ _ _ Hv).
    edestruct (IH Hnd (set_position k0 (pos0.1 + vx, pos0.2 + vy) s))
      as (s' & Hrun & Hv' & Hg & Hc & Hconn & Hlook).
    { intros e He. cbn. apply Hin. by right. }
    exists s'. split; [exact Hrun|]. repeat split; try done.
    intros k. rewrite Hlook. cbn.
    destruct (decide (k = k0)) as [->|Hne].
    + rewrite (not_elem_of_list_to_map_1 rest k0) by done.
      by rewrite !lookup_insert_eq, Hv.
    + by rewrite !lookup_insert_ne.
Qed.

Lemma constrain_run (k : string) (c : constraint) (s : PhysicsSimulator)
    (pos vel : Qc * Qc) :
  joints (sf s) !! k = Some pos → velocities s !! k = Some vel →
  ∃ s', constrain k c s = (s', Ok tt)
    ∧ gravity s' = gravity s ∧ constraints s' = constraints s
    ∧ skeleton_connections (sf s') = skeleton_connections (sf s)
    ∧ joints (sf s')
      = <[k := (clamp_y_max c (clamp_y_min c (pos, vel))).1]> (joints (sf s))
    ∧ velocities s'
      = <[k := (clamp_y_max c (clamp_y_min c (pos, vel))).2]> (velocities s).
Proof.
  intros Hp Hv. destruct pos as [x y], vel as [vx vy].
  assert (Hid : velocities s = <[k := (vx, vy)]> (velocities s)).
  { symmetry. by apply insert_id. }
  assert (Hneg : - vy * bounce_damping = - (bounce_damping * vy)) by ring.
  unfold constrain, clamp_y_min, clamp_y_max. mstep.
  rewrite (getitem_Some _ _ _ Hp). mstep. cbn [fst snd].
  destruct (c !! "y_min") as [lo|]; [case_bool_decide|]; mstep;
    [rewrite (getitem_Some _ _ _ Hv); mstep| |];
    (destruct (c !! "y_max") as [hi|]; [cbn [fst snd]; case_bool_decide|]);
    cbn [fst snd]; eexists; (split; [reflexivity|]);
    cbn; rewrite ?Hneg; repeat split; done.
Qed.

Lemma constraints_loop (l : list (string * constraint)) :
  NoDup l.*1 →
  ∀ s,
    (∀ e, e ∈ l →
          is_Some (joints (sf s) !! e.1) ∧ is_Some (velocities s !! e.1)) →
    ∃ s', for_each l (λ e, constrain e.1 e.2) s = (s', Ok tt)
      ∧ gravity s' = gravity s ∧ constraints s' = constraints s
      ∧ skeleton_connections (sf s') = skeleton_connections (sf s)
      ∧ dom (joints (sf s')) = dom (joints (sf s))
      ∧ dom (velocities s') = dom (velocities s)
      ∧ ∀ k pos vel,
          joints (sf s) !! k = Some pos → velocities s !! k = Some vel →
          let pv := match (list_to_map l : gmap string constraint) !! k with
                    | Some c => clamp_y_max c (clamp_y_min c (pos, vel))
                    | None => (pos, vel)
                    end in
          joints (sf s') !! k = Some pv.1 ∧ velocities s' !! k = Some pv.2.
Proof.
  induction l as [|[k0 c0] rest IH]; intros Hnd s Hin.
  - exists s. do 6 (split; [done|]). intros k pos vel Hp Hv. by cbn.
  - apply NoDup_cons in Hnd as [Hk0 Hnd].
    destruct (Hin (k0, c0)) as [[pos0 Hp0] [vel0 Hv0]]; [left|]. cbn in Hp0, Hv0.
    destruct (constrain_run k0 c0 s pos0 vel0 Hp0 Hv0)
      as (s1 & Hrun1 & Hg1 & Hc1 & Hconn1 & Hj1 & Hv1).
    cbn [for_each]. mstep. cbn [fst snd]. rewrite Hrun1.
    edestruct (IH Hnd s1) as (s' & Hrun & Hg & Hc & Hconn & Hdj & Hdv & Hlook).
    { intros e He. rewrite Hj1, Hv1. split; apply lookup_insert_is_Some';
        right; apply Hin; by right. }
    exists s'. split; [exact Hrun|].
    split; [congruence|]. split; [congruence|]. split; [congruence|].
    split; [|split].
    { rewrite Hdj, Hj1, dom_insert_L.
      assert (k0 ∈ dom (joints (sf s))) by (apply elem_of_dom; eauto).
      set_solver. }
    { rewrite Hdv, Hv1, dom_insert_L.
      assert (k0 ∈ dom (velocities s)) by (apply elem_of_dom; eauto).
      set_solver. }
    intros k pos vel Hp Hv. cbn.
    destruct (decide (k = k0)) as [->|Hne].
    + rewrite lookup_insert_eq.
      assert (pos = pos0) as -> by congruence.
      assert (vel = vel0) as -> by congruence.
      specialize (Hlook k0 _ _ ltac:(rewrite Hj1; apply lookup_insert_eq)
                           ltac:(rewrite Hv1; apply lookup_insert_eq)).
      cbn in Hlook. by rewrite (not_elem_of_list_to_map_1 rest k0) in Hlook.
    + rewrite lookup_insert_ne by done. apply Hlook.
      * rewrite Hj1. by rewrite lookup_insert_ne.
      * rewrite Hv1. by rewrite lookup_insert_ne.
Qed.

(** One call of [update] on a simulator with a velocity for every joint and
    constraints on joints that exist, whatever the bounds are: it returns,
    and every joint has taken the step [step_joint]. *)
Lemma update_run_dom (s : PhysicsSimulator) :
  dom (velocities s) = dom (joints (sf s)) →
  dom (constraints s) ⊆ dom (joints (sf s)) →
  ∃ s', update s = (s', Ok tt)
    ∧ gravity s' = gravity s ∧ constraints s' = constraints s
    ∧ skeleton_connections (sf s') = skeleton_connections (sf s)
    ∧ dom (joints (sf s')) = dom (joints (sf s))
    ∧ dom (velocities s') = dom (velocities s)
    ∧ ∀ k pos vel,
        joints (sf s) !! k = Some pos → velocities s !! k = Some vel →
        joints (sf s') !! k
          = Some (step_joint (gravity s) (constraints s !! k) pos vel).1
        ∧ velocities s' !! k
          = Some (step_joint (gravity s) (constraints s !! k) pos vel).2.
Proof.
  intros Hdom Hcdom.
  assert (Hvel : ∀ k, is_Some (joints (sf s) !! k) → is_Some (velocities s !! k)).
  { intros k Hk. by apply elem_of_dom; rewrite Hdom; apply elem_of_dom. }
  (* gravity *)
  destruct (gravity_loop (keys (joints (sf s))) (NoDup_keys _) s)
    as (s1 & Hrun1 & Hsf1 & Hg1 & Hc1 & Hv1).
  { intros k Hk%elem_of_keys. by apply Hvel. }
  (* positions *)
  destruct (move_loop (items (joints (sf s1))) (NoDup_fst_map_to_list _) s1)
    as (s2 & Hrun2 & Hv2 & Hg2 & Hc2 & Hconn2 & Hj2).
  { intros [k pos] He%elem_of_map_to_list. cbn. rewrite Hv1, Hsf1 in *.
    destruct (Hvel k) as [v Hv]; [eauto|]. rewrite Hv. by case_decide. }
  assert (Hj2' : ∀ k pos vel,
    joints (sf s) !! k = Some pos → velocities s !! k = Some vel →
    joints (sf s2) !! k = Some (integrate (gravity s) pos vel).1
    ∧ velocities s2 !! k = Some (integrate (gravity s) pos vel).2).
  { intros k pos vel Hp Hv.
    assert (Hk : velocities s1 !! k = Some (vel.1, vel.2 + gravity s)).
    { rewrite Hv1, Hv. rewrite decide_True; [done|]. apply elem_of_keys. eauto. }
    split; [|by rewrite Hv2].
    rewrite Hj2. unfold items. rewrite list_to_map_to_list, Hsf1, Hp, Hk. done. }
  (* constraints *)
  destruct (constraints_loop (items (constraints s2)) (NoDup_fst_map_to_list _) s2)
    as (s3 & Hrun3 & Hg3 & Hc3 & Hconn3 & Hdj3 & Hdv3 & Hj3).
  { intros [k c] He%elem_of_map_to_list. cbn. rewrite Hc2, Hc1 in He.
    assert (Hk : is_Some (joints (sf s) !! k)).
    { apply elem_of_dom, Hcdom, elem_of_dom. eauto. }
    destruct Hk as [pos Hp]. destruct (Hvel k) as [vel Hv]; [eauto|].
    destruct (Hj2' k pos vel Hp Hv) as [-> ->]. eauto. }
  assert (Hdj2 : dom (joints (sf s2)) = dom (joints (sf s))).
  { apply set_eq. intros k. rewrite !elem_of_dom, Hj2. unfold items.
    rewrite list_to_map_to_list, Hsf1.
    destruct (joints (sf s) !! k) as [pos|] eqn:Hp.
    - destruct (Hvel k) as [vel Hv]; [eauto|].
      rewrite Hv1, Hv. case_decide; cbn; split; eauto.
    - split; intros [? ?]; done. }
  assert (Hdv2 : dom (velocities s2) = dom (velocities s)).
  { rewrite Hv2. apply set_eq. intros k. rewrite !elem_of_dom, Hv1.
    case_decide; [|done]. by rewrite fmap_is_Some. }
  exists s3. split.
  { unfold update, apply_gravity, apply_constraints. mstep.
    rewrite Hrun1. mstep. rewrite Hrun2. mstep. exact Hrun3. }
  split; [congruence|]. split; [congruence|]. split; [by rewrite Hconn3, Hconn2, Hsf1|].
  split; [congruence|]. split; [congruence|].
  intros k pos vel Hp Hv. destruct (Hj2' k pos vel Hp Hv) as [Hp2 Hv2'].
  specialize (Hj3 k _ _ Hp2 Hv2'). cbn in Hj3. unfold items in Hj3.
  rewrite list_to_map_to_list, Hc2, Hc1 in Hj3.
  unfold step_joint. by destruct (constraints s !! k).
Qed.

(** The same on a simulator in good order. *)
Lemma update_run (s : PhysicsSimulator) :
  sim_ok s →
  ∃ s', update s = (s', Ok tt)
    ∧ gravity s' = gravity s ∧ constraints s' = constraints s
    ∧ skeleton_connections (sf s') = skeleton_connections (sf s)
    ∧ dom (joints (sf s')) = dom (joints (sf s))
    ∧ dom (velocities s') = dom (velocities s)
    ∧ ∀ k pos vel,
        joints (sf s) !! k = Some pos → velocities s !! k = Some vel →
        joints (sf s') !! k
          = Some (step_joint (gravity s) (constraints s !! k) pos vel).1
        ∧ velocities s' !! k
          = Some (step_joint (gravity s) (constraints s !! k) pos vel).2.
Proof. intros (Hdom & Hcdom & _). by apply update_run_dom. Qed.

Lemma update_sim_ok (s s' : PhysicsSimulator) :
  sim_ok s → update s = (s', Ok tt) → sim_ok s'.
Proof.
  intros Hok Hrun. destruct (update_run s Hok)
    as (s1 & Hrun1 & Hg & Hc & _ & Hdj & Hdv & _).
  rewrite Hrun in Hrun1. injection Hrun1 as <-.
  destruct Hok as (Hd & Hcd & Hord). split; [congruence|].
  split; [by rewrite Hc, Hdj|]. intros k c. rewrite Hc. apply Hord.
Qed.

Lemma clamp_y_max_velocity (c : constraint) (pv : (Qc * Qc) * (Qc * Qc)) :
  (clamp_y_max c pv).2 = pv.2.
Proof.
  unfold clamp_y_max. destruct (c !! "y_max"); [|done]. by case_bool_decide.
Qed.

Lemma clamp_floor (c : constraint) (pv : (Qc * Qc) * (Qc * Qc)) (lo : Qc) :
  ordered_bounds c → c !! "y_min" = Some lo →
  lo ≤ (clamp_y_max c (clamp_y_min c pv)).1.2.
Proof.
  intros Hord Hlo. unfold clamp_y_min. rewrite Hlo.
  assert (Hmin : lo ≤ (if bool_decide (pv.1.2 < lo)
                       then ((pv.1.1, lo), (pv.2.1, - (bounce_damping * pv.2.2)))
                       else pv).1.2).
  { case_bool_decide as Hlt; cbn; [apply Qcle_refl|by apply Qcnot_lt_le]. }
  revert Hmin. generalize (if bool_decide (pv.1.2 < lo)
                       then ((pv.1.1, lo), (pv.2.1, - (bounce_damping * pv.2.2)))
                       else pv).
  intros pv' Hmin. unfold clamp_y_max.
  destruct (c !! "y_max") as [hi|] eqn:Hhi; [|done].
  case_bool_decide; [|done]. cbn. by apply Hord.
Qed.

Lemma update_above_floor (s s' : PhysicsSimulator) :
  sim_ok s → update s = (s', Ok tt) → above_floor s'.
Proof.
  intros Hok Hrun. destruct (update_run s Hok)
    as (s1 & Hrun1 & Hg & Hc & _ & Hdj & Hdv & Hstep).
  rewrite Hrun in Hrun1. injection Hrun1 as <-.
  destruct Hok as (Hd & Hcd & Hord).
  intros k c lo Hk Hlo. rewrite Hc in Hk.
  assert (Hp : is_Some (joints (sf s) !! k)).
  { apply elem_of_dom, Hcd, elem_of_dom. eauto. }
  assert (Hv : is_Some (velocities s !! k)).
  { apply elem_of_dom. rewrite Hd. by apply elem_of_dom. }
  destruct Hp as [pos Hp], Hv as [vel Hv].
  destruct (Hstep k pos vel Hp Hv) as [Hj _]. rewrite Hk in Hj. cbn in Hj.
  pose proof (clamp_floor c (integrate (gravity s) pos vel) lo (Hord k c Hk) Hlo)
    as Hfloor.
  destruct (clamp_y_max c (clamp_y_min c (integrate (gravity s) pos vel)))
    as [[x y] v']. cbn in *. eauto.
Qed.

Lemma run_updates_ok (n : nat) :
  ∀ s, sim_ok s → above_floor s →
       ∃ s', run_updates n s = (s', Ok tt) ∧ sim_ok s' ∧ above_floor s'.
Proof.
  induction n as [|n IH]; intros s Hok Hfl.
  - by exists s.
  - destruct (update_run s Hok) as (s1 & Hrun1 & _).
    cbn [run_updates]. mstep. rewrite Hrun1.
    apply IH; [by eapply update_sim_ok|by eapply update_above_floor].
Qed.

Lemma sim_ok_new (stick_figure : StickFigure Qc) :
  {["left_ankle"; "right_ankle"; "head"]} ⊆ dom (joints stick_figure) →
  sim_ok (new_PhysicsSimulator stick_figure).
Proof.
  intros Hsub. split; [|split].
  - cbn. by rewrite dom_fmap_L.
  - cbn. unfold _build_constraints. rewrite !dom_insert_L, dom_empty_L.
    set_solver.
  - intros k c. cbn. unfold _build_constraints.
    rewrite !lookup_insert_Some, lookup_empty.
    intros [[_ <-]|[_ [[_ <-]|[_ [[_ <-]|[_ [=]]]]]]];
      intros lo hi; rewrite lookup_insert_eq, lookup_insert_ne by done;
      rewrite lookup_insert_eq; intros [= <-] [= <-]; intros H; discriminate H.
Qed.

Lemma sim_ok_default : sim_ok (new_PhysicsSimulator new_StickFigure).
Proof.
  apply sim_ok_new. intros k Hk. apply elem_of_dom.
  rewrite !elem_of_union, !elem_of_singleton in Hk.
  destruct Hk as [[-> | ->] | ->]; eexists; reflexivity.
Qed.

(** ** Claims about the physics toy *)

(** C3.  One call of [update] on a simulator that has a velocity for every
    joint and constraints on joints that exist, whatever the bounds of the
    constraints are, returns, leaves the gravity constant and the
    constraints as they were, and has moved every joint by [step_joint]: the
    gravity is added to the vertical velocity, the velocity is added to the
    position (once), and then, for a joint with a constraint, the position
    is first put on [y_min] if it is below it, in which case the vertical
    velocity [vy] becomes [- vy * 0.7], and is then put on [y_max] if it is
    above it, with the velocity untouched.  The order shows when the bounds
    are crossed: a joint that went below a [y_min] which is above its
    [y_max] bounces and ends on [y_max].  A joint without a constraint keeps
    the position and velocity of the integration. *)
Theorem update_step (s : PhysicsSimulator) :
  dom (velocities s) = dom (joints (sf s)) →
  dom (constraints s) ⊆ dom (joints (sf s)) →
  ∃ s', update s = (s', Ok tt)
    ∧ (sim_ok s → sim_ok s')
    ∧ gravity s' = gravity s
    ∧ constraints s' = constraints s
    ∧ bounce_damping = lit 0.7
    ∧ (∀ k pos vel,
        joints (sf s) !! k = Some pos → velocities s !! k = Some vel →
        joints (sf s') !! k
          = Some (step_joint (gravity s) (constraints s !! k) pos vel).1
        ∧ velocities s' !! k
          = Some (step_joint (gravity s) (constraints s !! k) pos vel).2)
    ∧ (∀ k x y vx vy,
        joints (sf s) !! k = Some (x, y) → velocities s !! k = Some (vx, vy) →
        constraints s !! k = None →
        joints (sf s') !! k = Some (x + vx, y + (vy + gravity s))
        ∧ velocities s' !! k = Some (vx, vy + gravity s))
    ∧ (∀ k c lo hi x y vx vy,
        joints (sf s) !! k = Some (x, y) → velocities s !! k = Some (vx, vy) →
        constraints s !! k = Some c →
        c !! "y_min" = Some lo → c !! "y_max" = Some hi →
        (y + (vy + gravity s) < lo →
         joints (sf s') !! k
           = Some (x + vx, if bool_decide (hi < lo) then hi else lo)
         ∧ velocities s' !! k = Some (vx, - (vy + gravity s) * lit 0.7))
        ∧ (lo ≤ y + (vy + gravity s) → hi < y + (vy + gravity s) →
           joints (sf s') !! k = Some (x + vx, hi)
           ∧ velocities s' !! k = Some (vx, vy + gravity s))).
Proof.
  intros Hdom Hcdom. destruct (update_run_dom s Hdom Hcdom)
    as (s' & Hrun & Hg & Hc & Hconn & Hdj & Hdv & Hstep).
  exists s'. split; [done|].
  split; [intros Hok; by eapply update_sim_ok|].
  split; [done|]. split; [done|]. split; [reflexivity|].
  split; [exact Hstep|]. split.
  - intros k x y vx vy Hp Hv Hnone.
    destruct (Hstep k _ _ Hp Hv) as [Hj Hv']. rewrite Hnone in Hj, Hv'. done.
  - intros k c lo hi x y vx vy Hp Hv Hk Hlo Hhi.
    destruct (Hstep k _ _ Hp Hv) as [Hj Hv']. rewrite Hk in Hj, Hv'.
    unfold step_joint, clamp_y_max, clamp_y_min, integrate in Hj, Hv'.
    rewrite Hlo, Hhi in Hj, Hv'. cbn [fst snd] in Hj, Hv'.
    assert (Hneg : - (bounce_damping * (vy + gravity s))
                   = - (vy + gravity s) * lit 0.7).
    { unfold bounce_damping. ring. }
    split.
    + intros Hlt. rewrite (bool_decide_eq_true_2 _ Hlt) in Hj, Hv'.
      cbn [fst snd] in Hj, Hv'. rewrite Hj, Hv'.
      case_bool_decide; cbn [fst snd]; by rewrite Hneg.
    + intros Hge Hgt.
      rewrite (bool_decide_eq_false_2 (y + (vy + gravity s) < lo))
        in Hj, Hv' by (by apply Qcle_not_lt).
      cbn [fst snd] in Hj, Hv'.
      rewrite (bool_decide_eq_true_2 _ Hgt) in Hj, Hv'. done.
Qed.

Lemma update_step_witness :
  ∃ s', update crossed_bounds = (s', Ok tt)
        ∧ joints (sf s') !! "head" = Some (lit 0, lit 1.0)
        ∧ velocities s' !! "head" = Some (lit 0, lit 0.014).
Proof.
  assert (Hdom : dom (velocities crossed_bounds)
                 = dom (joints (sf crossed_bounds))).
  { cbn. by rewrite dom_fmap_L. }
  assert (Hcdom : dom (constraints crossed_bounds)
                  ⊆ dom (joints (sf crossed_bounds))).
  { intros k Hk. cbn in Hk. unfold _build_constraints in Hk.
    rewrite !dom_insert, dom_empty, !elem_of_union, !elem_of_singleton in Hk.
    apply elem_of_dom.
    destruct Hk as [->|[->|[->|[->|Hk]]]];
      [eexists; reflexivity..|by apply elem_of_empty in Hk]. }
  destruct (update_step crossed_bounds Hdom Hcdom)
    as (s' & Hrun & _ & _ & _ & _ & _ & _ & Hcross).
  exists s'. split; [exact Hrun|].
  destruct (Hcross "head"
              (<["y_min" := lit 2.0]> (<["y_max" := lit 1.0]> ∅))
              (lit 2.0) (lit 1.0) (lit 0) (lit 1.7) (lit 0) (lit 0))
    as [Hbelow _]; try reflexivity.
  destruct Hbelow as [Hj Hv]; [reflexivity|].
  rewrite Hj, Hv. split; [reflexivity|].
  f_equal. f_equal. apply Qc_is_canon. reflexivity.
Defined.

(** The left ankle of the default figure falls from [-0.5]; the sixth step
    takes it below its floor [-0.8], where it is put back with its
    velocity [-0.12] turned into [0.084]. *)
Example sixth_step_bounces :
  ∃ s', run_updates 6 (new_PhysicsSimulator new_StickFigure) = (s', Ok tt)
    ∧ ∃ x y vx vy,
        joints (sf s') !! "left_ankle" = Some (x, y)
        ∧ velocities s' !! "left_ankle" = Some (vx, vy)
        ∧ y = lit (-0.8) ∧ vy = lit 0.084.
Proof.
  eexists. split; [vm_compute; reflexivity|].
  eexists _, _, _, _. split; [vm_compute; reflexivity|].
  split; [vm_compute; reflexivity|].
  split; apply Qc_is_canon; vm_compute; reflexivity.
Qed.

(** C4.  On a simulator in good order, after any number of steps (at least
    one) every joint with a [y_min] is at or above it; and on a step whose
    integrated position falls below [y_min] from a position at or above it,
    the vertical velocity after the step is [- (r * vy)] for the velocity
    [vy] it had after gravity: it was negative and is now positive. *)
Theorem y_min_floor_and_bounce (s : PhysicsSimulator) (n : nat) :
  sim_ok s →
  (∃ s', run_updates (S n) s = (s', Ok tt) ∧ above_floor s')
  ∧ (∀ k c lo x y vx vy,
       constraints s !! k = Some c → c !! "y_min" = Some lo →
       joints (sf s) !! k = Some (x, y) → velocities s !! k = Some (vx, vy) →
       lo ≤ y → y + (vy + gravity s) < lo →
       ∃ s1, update s = (s1, Ok tt)
         ∧ velocities s1 !! k
           = Some (vx, - (bounce_damping * (vy + gravity s)))
         ∧ vy + gravity s < 0
         ∧ 0 < - (bounce_damping * (vy + gravity s))).
Proof.
  intros Hok. destruct (update_run s Hok) as (s1 & Hrun1 & _ & _ & _ & _ & _ & Hstep).
  split.
  - cbn [run_updates]. mstep. rewrite Hrun1.
    destruct (run_updates_ok n s1) as (s' & Hrun & _ & Hfl);
      [by eapply update_sim_ok|by eapply update_above_floor|].
    by exists s'.
  - intros k c lo x y vx vy Hc Hlo Hp Hv Hy Hcross.
    exists s1. split; [done|].
    destruct (Hstep k _ _ Hp Hv) as [_ Hv1]. rewrite Hc in Hv1. cbn in Hv1.
    rewrite clamp_y_max_velocity in Hv1. unfold clamp_y_min in Hv1.
    rewrite Hlo in Hv1. cbn in Hv1. rewrite bool_decide_eq_true_2 in Hv1 by done.
    split; [exact Hv1|].
    assert (Hneg : vy + gravity s < 0).
    { apply (Qcplus_lt_mono_l _ _ y). rewrite Qcplus_0_r.
      by eapply Qclt_le_trans. }
    split; [done|].
    replace (- (bounce_damping * (vy + gravity s)))
      with (bounce_damping * - (vy + gravity s)) by ring.
    rewrite <- (Qcmult_0_l (- (vy + gravity s))).
    apply Qcmult_lt_compat_r; [|reflexivity].
    apply (Qcplus_lt_mono_l _ _ (vy + gravity s)).
    by rewrite Qcplus_0_r, Qcplus_opp_r.
Qed.

Lemma y_min_floor_and_bounce_witness :
  ∃ s', run_updates 120 (new_PhysicsSimulator new_StickFigure) = (s', Ok tt)
        ∧ above_floor s'.
Proof.
  exact (proj1 (y_min_floor_and_bounce (new_PhysicsSimulator new_StickFigure)
                  119 sim_ok_default)).
Defined.

(** ** The joint names under the operations *)

Section KeySet.
Variables (np_sin np_cos : Qc → Qc) (np_pi : Qc).

(** However [animate_wave] ends, it leaves the joint names as they were. *)
Lemma animate_wave_dom (frames : Z) (run : playback) (self : StickFigure Qc) :
  dom (joints (animate_wave np_sin np_cos np_pi frames run self).1)
  = dom (joints self).
Proof.
  unfold animate_wave. mstep.
  destruct (joints self !! "right_elbow") as [oe|] eqn:He;
    [rewrite (getitem_Some _ _ _ He)|by rewrite (getitem_None _ _ He)].
  mstep.
  destruct (joints self !! "right_wrist") as [ow|] eqn:Hw;
    [rewrite (getitem_Some _ _ _ Hw)|by rewrite (getitem_None _ _ Hw)].
  mstep.
  pose proof (for_each_inv (agree_off {["right_elbow"; "right_wrist"]} self)
                (played run)
                (wave_update np_sin np_cos np_pi frames oe ow)) as Hloop.
  specialize (Hloop (λ a s _ Hs,
                       wave_update_agree np_sin np_cos np_pi frames a oe ow self s Hs)
                    self (agree_off_refl _ _)).
  destruct (for_each (played run) _ self) as [s1 [[]|e]];
    cbn in Hloop; destruct Hloop as (_ & Hd & _); [|done].
  unfold finish. destruct (escaped run); [done|]. mstep. cbn.
  rewrite !dom_insert_L, Hd.
  assert ("right_elbow" ∈ dom (joints self)) by (apply elem_of_dom; eauto).
  assert ("right_wrist" ∈ dom (joints self)) by (apply elem_of_dom; eauto).
  set_solver.
Qed.

End KeySet.

Section WalkKeySet.
Variables (np_sin : Qc → Qc) (np_pi : Qc).

(** However [animate_walk] ends, it leaves the joint names as they were. *)
Lemma animate_walk_dom (frames : Z) (run : playback) (self : StickFigure Qc) :
  dom (joints (animate_walk np_sin np_pi frames run self).1)
  = dom (joints self).
Proof.
  unfold animate_walk. mstep.
  capture "left_knee" oLK Hlk. capture "left_ankle" oLA Hla.
  capture "right_knee" oRK Hrk. capture "right_ankle" oRA Hra.
  capture "left_elbow" oLE Hle. capture "left_wrist" oLW Hlw.
  capture "right_elbow" oRE Hre. capture "right_wrist" oRW Hrw.
  match goal with |- context [walk_update _ _ _ ?m] => set (op := m) end.
  pose proof (for_each_inv (agree_off walk_joints self) (played run)
                (walk_update np_sin np_pi frames op)) as Hloop.
  specialize (Hloop (λ a s _ Hs,
                       walk_update_agree np_sin np_pi frames a op self s Hs)
                    self (agree_off_refl _ _)).
  destruct (for_each (played run) _ self) as [s1 [[]|e]];
    cbn in Hloop; destruct Hloop as (_ & Hd & _); [|done].
  unfold finish. destruct (escaped run); [done|]. mstep.
  rewrite restore_loop by apply NoDup_fst_map_to_list. cbn.
  unfold items. rewrite list_to_map_to_list, dom_union_L, Hd.
  assert (Hop : dom op ⊆ dom (joints self)).
  { unfold op. rewrite !dom_insert_L, dom_empty_L.
    intros k. rewrite !elem_of_union, !elem_of_singleton, elem_of_empty.
    intros H. apply elem_of_dom.
    repeat (destruct H as [->|H]; [by eexists|]). done. }
  set_solver.
Qed.
End WalkKeySet.

(** Joint update, the two animators and the physics step keep the joint
    names of the figure exactly, whatever their outcome. *)
Lemma operations_keep_joint_names :
  (∀ (V : Type) (name : string) (pos : V * V) (self : StickFigure V),
      dom (joints (update_joint name pos self)) = dom (joints self))
  ∧ (∀ np_sin np_cos np_pi frames run (self : StickFigure Qc),
      dom (joints (animate_wave np_sin np_cos np_pi frames run self).1)
      = dom (joints self))
  ∧ (∀ np_sin np_pi frames run (self : StickFigure Qc),
      dom (joints (animate_walk np_sin np_pi frames run self).1)
      = dom (joints self))
  ∧ (∀ s : PhysicsSimulator,
      sim_ok s → dom (joints (sf (update s).1)) = dom (joints (sf s))).
Proof.
  split; [|split; [|split]].
  - intros. apply update_joint_dom.
  - intros. apply animate_wave_dom.
  - intros. apply animate_walk_dom.
  - intros s Hok. destruct (update_run s Hok) as (s' & -> & _ & _ & _ & Hd & _).
    cbn. exact Hd.
Qed.

(** * More of the code *)

(** ** [update_joint] and [plot_skeleton] *)

Lemma setitem_joint_eq {V : Type} (self : StickFigure V) (j : gmap string (V * V)) :
  j = joints self → mkStickFigure j (skeleton_connections self) = self.
Proof. intros ->. by destruct self. Qed.

(** X1.  [update_joint] with a name the figure does not have returns the
    figure as it was; writing the position a joint already has changes
    nothing; of two updates of one joint the second alone counts; updates of
    two different joints can be made in either order. *)
Theorem update_joint_laws (V : Type) (self : StickFigure V) (a b : string)
    (p q : V * V) :
  (a ∉ dom (joints self) → update_joint a p self = self)
  ∧ (joints self !! a = Some p → update_joint a p self = self)
  ∧ update_joint a q (update_joint a p self) = update_joint a q self
  ∧ (a ≠ b →
     update_joint a p (update_joint b q self)
     = update_joint b q (update_joint a p self)).
Proof.
  split; [|split; [|split]].
  - intros Ha. unfold update_joint. by rewrite decide_False.
  - intros Ha. unfold update_joint. case_decide; [|done].
    unfold setitem_joint. apply setitem_joint_eq. by apply insert_id.
  - unfold update_joint. destruct (decide (a ∈ dom (joints self))) as [Ha|Ha].
    + rewrite decide_True by (cbn; rewrite dom_insert_L; set_solver).
      unfold setitem_joint. cbn. by rewrite insert_insert_eq.
    + by rewrite decide_False.
  - intros Hab. unfold update_joint.
    destruct (decide (a ∈ dom (joints self))) as [Ha|Ha];
      destruct (decide (b ∈ dom (joints self))) as [Hb|Hb]; cbn;
      repeat first
        [ rewrite decide_True by (cbn; rewrite ?dom_insert_L; set_solver)
        | rewrite decide_False by (cbn; rewrite ?dom_insert_L; set_solver) ];
      [|done..].
    unfold setitem_joint. cbn. f_equal. by apply insert_insert_ne.
Qed.

(** The loop of [plot_skeleton] over the bones [l] of the figure [self]. *)
Lemma plot_loop_outcome (self s : StickFigure Qc) (l : list (string * string)) :
  let r := (for_each l (λ c,
              '(x1, y1) ← lift (getitem (joints self) c.1);
              '(x2, y2) ← lift (getitem (joints self) c.2);
              mret tt) s).2 in
  (r = Ok tt ∧ ∀ c, c ∈ l → c.1 ∈ dom (joints self) ∧ c.2 ∈ dom (joints self))
  ∨ (∃ k c, r = Raise (KeyError k) ∧ (k ∉ dom (joints self))
            ∧ c ∈ l ∧ (k = c.1 ∨ k = c.2)).
Proof.
  revert s. induction l as [|c rest IH]; intros s r.
  - left. split; [done|]. intros c Hc. by apply elem_of_nil in Hc.
  - subst r. cbn [for_each]. mstep.
    destruct (joints self !! c.1) as [[x1 y1]|] eqn:H1.
    + rewrite (getitem_Some _ _ _ H1). mstep.
      destruct (joints self !! c.2) as [[x2 y2]|] eqn:H2.
      * rewrite (getitem_Some _ _ _ H2). mstep.
        destruct (IH s) as [[Hr Hall]|(k & c' & Hr & Hk & Hc' & Hend)].
        -- left. split; [exact Hr|]. intros c' [->|Hc']%elem_of_cons.
           ++ split; apply elem_of_dom; eauto.
           ++ by apply Hall.
        -- right. exists k, c'. repeat split; try done. by right.
      * rewrite (getitem_None _ _ H2). right. exists c.2, c.
        split; [done|]. split; [by apply not_elem_of_dom|]. split; [left|by right].
    + rewrite (getitem_None _ _ H1). right. exists c.1, c.
      split; [done|]. split; [by apply not_elem_of_dom|]. split; [left|by left].
Qed.

(** X2.  [plot_skeleton] never changes the figure.  It returns when every
    bone joins two joints of the figure, and only then; otherwise it raises
    [KeyError] for an end point of a bone that the figure lacks. *)
Theorem plot_skeleton_outcome (s : StickFigure Qc) :
  (plot_skeleton s).1 = s
  ∧ ((plot_skeleton s).2 = Ok tt ↔ bones_ok s)
  ∧ ((plot_skeleton s).2 ≠ Ok tt →
     ∃ k c, (plot_skeleton s).2 = Raise (KeyError k)
            ∧ (k ∉ dom (joints s))
            ∧ c ∈ skeleton_connections s ∧ (k = c.1 ∨ k = c.2)).
Proof.
  split; [apply plot_skeleton_state|].
  pose proof (plot_loop_outcome s s (skeleton_connections s)) as H.
  cbn zeta in H.
  assert (Hrun : (plot_skeleton s).2
    = (for_each (skeleton_connections s) (λ c,
              '(x1, y1) ← lift (getitem (joints s) c.1);
              '(x2, y2) ← lift (getitem (joints s) c.2);
              mret tt) s).2).
  { unfold plot_skeleton. by mstep. }
  rewrite Hrun. destruct H as [[Hr Hall]|(k & c & Hr & Hk & Hc & Hend)].
  - split; [|by rewrite Hr]. split; [done|by rewrite Hr].
  - split.
    + rewrite Hr. split; [done|]. intros Hb. exfalso. apply Hk.
      destruct (Hb c Hc) as [? ?]. by destruct Hend as [-> | ->].
    + intros _. by exists k, c.
Qed.

Lemma update_joint_bones_ok (name : string) (pos : Qc * Qc) (self : StickFigure Qc) :
  bones_ok self → bones_ok (update_joint name pos self).
Proof.
  intros Hb c. rewrite update_joint_connections, update_joint_dom. apply Hb.
Qed.

Lemma apply_updates_keeps (updates : list (string * (Qc * Qc))) :
  ∀ self : StickFigure Qc,
    bones_ok self →
    bones_ok (apply_updates updates self)
    ∧ dom (joints (apply_updates updates self)) = dom (joints self)
    ∧ skeleton_connections (apply_updates updates self)
      = skeleton_connections self.
Proof.
  induction updates as [|[n p] rest IH]; intros self Hb; [done|].
  change (apply_updates ((n, p) :: rest) self)
    with (apply_updates rest (update_joint n p self)).
  destruct (IH (update_joint n p self)) as (H1 & H2 & H3).
  { by apply update_joint_bones_ok. }
  split; [exact H1|]. split.
  - by rewrite H2, update_joint_dom.
  - by rewrite H3, update_joint_connections.
Qed.

(** X3.  A figure whose bones join existing joints stays so under any run
    of [update_joint] calls, with whatever names and positions: the joint
    names and the bones are the same after the run, and [plot_skeleton]
    returns on the result. *)
Theorem updates_keep_drawable (updates : list (string * (Qc * Qc)))
    (self : StickFigure Qc) :
  bones_ok self →
  dom (joints (apply_updates updates self)) = dom (joints self)
  ∧ skeleton_connections (apply_updates updates self)
    = skeleton_connections self
  ∧ plot_skeleton (apply_updates updates self)
    = (apply_updates updates self, Ok tt).
Proof.
  intros Hb. destruct (apply_updates_keeps updates self Hb) as (H1 & H2 & H3).
  split; [done|]. split; [done|].
  pose proof (plot_skeleton_state (apply_updates updates self)) as Hst.
  pose proof (plot_skeleton_ok (apply_updates updates self) H1) as Hok.
  destruct (plot_skeleton _) as [s r]. cbn in *. by subst.
Qed.

Lemma updates_keep_drawable_witness :
  dom (joints (apply_updates squat_updates new_StickFigure))
  = dom (joints new_StickFigure)
  ∧ skeleton_connections (apply_updates squat_updates new_StickFigure)
    = skeleton_connections new_StickFigure
  ∧ plot_skeleton (apply_updates squat_updates new_StickFigure)
    = (apply_updates squat_updates new_StickFigure, Ok tt).
Proof.
  apply (updates_keep_drawable squat_updates new_StickFigure).
  exact (proj2 valid_new_StickFigure).
Defined.

(** ** The animators: missing joints, frames that do not accumulate *)

Lemma for_each_app {S A : Type} (l1 l2 : list A) (body : A → M S unit) (s : S) :
  for_each (l1 ++ l2) body s
  = match for_each l1 body s with
    | (s', Ok _) => for_each l2 body s'
    | (s', Raise e) => (s', Raise e)
    end.
Proof.
  revert s. induction l1 as [|a rest IH]; intros s; [done|].
  cbn [app for_each]. mstep. destruct (body a s) as [s1 [[]|e]]; [|done].
  apply IH.
Qed.

Lemma for_each_singleton {S A : Type} (a : A) (body : A → M S unit) (s : S) :
  for_each [a] body s = body a s.
Proof.
  cbn [for_each]. mstep. by destruct (body a s) as [s1 [[]|e]].
Qed.

Lemma agree_off_eq (K : gset string) (self s : StickFigure Qc) :
  (∀ k, k ∉ K) → agree_off K self s → s = self.
Proof.
  intros HK (Hc & _ & Hl). destruct s as [j c], self as [j' c']. cbn in *.
  subst c. f_equal. apply map_eq. intros k. by apply Hl.
Qed.

Lemma update_joint_agree_both (K : gset string) (self s : StickFigure Qc)
    (n : string) (p : Qc * Qc) :
  agree_off K self s → n ∈ dom (joints self) →
  agree_off (K ∖ {[n]}) (update_joint n p self) (update_joint n p s).
Proof.
  intros (Hc & Hd & Hl) Hn. split; [|split].
  - by rewrite !update_joint_connections.
  - by rewrite !update_joint_dom.
  - intros k Hk. destruct (decide (k = n)) as [->|Hne].
    + rewrite !update_joint_lookup; [done|done|by rewrite Hd].
    + rewrite !update_joint_lookup_ne by done. apply Hl. set_solver.
Qed.

(** The figure a walk frame leaves behind. *)
Lemma walk_update_run (np_sin : Qc → Qc) (np_pi : Qc) (frames frame : Z)
    (op : pose) (s : StickFigure Qc) (lk la rk ra lw rw : Qc * Qc) :
  frames ≠ 0%Z →
  op !! "left_knee" = Some lk → op !! "left_ankle" = Some la →
  op !! "right_knee" = Some rk → op !! "right_ankle" = Some ra →
  op !! "left_wrist" = Some lw → op !! "right_wrist" = Some rw →
  let θ := phase np_pi (Qc_of_Z frame / Qc_of_Z frames) in
  let s' :=
    update_joint "right_wrist" (rw.1, rw.2 + lit 0.1 * np_sin θ)
    (update_joint "left_wrist" (lw.1, lw.2 + lit 0.1 * np_sin (θ + np_pi))
    (update_joint "right_ankle"
       (ra.1 + lit 0.05 * np_sin (θ + np_pi),
        ra.2 + lit 0.15 * np_sin (θ + np_pi))
    (update_joint "right_knee" (rk.1, rk.2 + lit 0.1 * np_sin (θ + np_pi))
    (update_joint "left_ankle"
       (la.1 + lit 0.05 * np_sin θ, la.2 + lit 0.15 * np_sin θ)
    (update_joint "left_knee" (lk.1, lk.2 + lit 0.1 * np_sin θ) s))))) in
  walk_update np_sin np_pi frames op frame s = (s', (plot_skeleton s').2).
Proof.
  intros Hne Hlk Hla Hrk Hra Hlw Hrw θ s'. unfold walk_update, true_div.
  rewrite decide_False by done. mstep.
  rewrite (getitem_Some _ _ _ Hlk). mstep. rewrite (getitem_Some _ _ _ Hla). mstep.
  rewrite (getitem_Some _ _ _ Hrk). mstep. rewrite (getitem_Some _ _ _ Hra). mstep.
  rewrite (getitem_Some _ _ _ Hlw). mstep. rewrite (getitem_Some _ _ _ Hrw). mstep.
  fold θ. fold s'.
  generalize (plot_skeleton_state s'). destruct (plot_skeleton s') as [s3 r].
  cbn. by intros ->.
Qed.

Lemma agree_off_mono (K K' : gset string) (self s : StickFigure Qc) :
  K ⊆ K' → agree_off K self s → agree_off K' self s.
Proof.
  intros HK (Hc & Hd & Hl). split; [done|]. split; [done|].
  intros k Hk. apply Hl. set_solver.
Qed.

Lemma walk_moved_joints : walk_moved ⊆ walk_joints.
Proof.
  unfold walk_moved, walk_joints. intros k.
  rewrite !elem_of_union, !elem_of_singleton. tauto.
Qed.

Lemma walk_update_agree_moved (np_sin : Qc → Qc) (np_pi : Qc) (frames frame : Z)
    (op : pose) (self s : StickFigure Qc) :
  agree_off walk_moved self s →
  agree_off walk_moved self (walk_update np_sin np_pi frames op frame s).1.
Proof.
  intros Hs. unfold walk_update, true_div.
  destruct (decide (frames = 0%Z)); [done|]. mstep.
  destruct (getitem op "left_knee"); [mstep|done].
  destruct (getitem op "left_ankle"); [mstep|done].
  destruct (getitem op "right_knee"); [mstep|done].
  destruct (getitem op "right_ankle"); [mstep|done].
  destruct (getitem op "left_wrist"); [mstep|done].
  destruct (getitem op "right_wrist"); [mstep|done].
  rewrite plot_skeleton_state.
  repeat (apply update_joint_agree;
          [unfold walk_moved; rewrite !elem_of_union, !elem_of_singleton; tauto|]).
  done.
Qed.

(** X4.  An animation on a figure that lacks one of the joints it captures
    raises [KeyError] for such a joint before any frame is played, and
    leaves the figure as it was.  The wave captures the right elbow and the
    right wrist; the walk captures its eight joints, the two elbows among
    them although no frame of the walk moves an elbow. *)
Theorem animate_missing_joint (np_sin np_cos : Qc → Qc) (np_pi : Qc)
    (frames : Z) (run : playback) (self : StickFigure Qc) :
  ((∃ k, k ∈ ({["right_elbow"; "right_wrist"]} : gset string)
         ∧ k ∉ dom (joints self)) →
   ∃ k, k ∈ ({["right_elbow"; "right_wrist"]} : gset string)
        ∧ (k ∉ dom (joints self))
        ∧ animate_wave np_sin np_cos np_pi frames run self
          = (self, Raise (KeyError k)))
  ∧ ((∃ k, k ∈ walk_joints ∧ k ∉ dom (joints self)) →
     ∃ k, k ∈ walk_joints ∧ (k ∉ dom (joints self))
          ∧ animate_walk np_sin np_pi frames run self
            = (self, Raise (KeyError k))).
Proof.
  assert (Hin : ∀ k v, joints self !! k = Some v → k ∈ dom (joints self)).
  { intros k v Hk. apply elem_of_dom. eauto. }
  split.
  - intros (k0 & Hk0 & Hmiss). unfold animate_wave. mstep.
    destruct (joints self !! "right_elbow") as [oe|] eqn:He.
    2:{ rewrite (getitem_None _ _ He). exists "right_elbow".
        split; [set_solver|]. split; [by apply not_elem_of_dom|done]. }
    rewrite (getitem_Some _ _ _ He). mstep.
    destruct (joints self !! "right_wrist") as [ow|] eqn:Hw.
    2:{ rewrite (getitem_None _ _ Hw). exists "right_wrist".
        split; [set_solver|]. split; [by apply not_elem_of_dom|done]. }
    exfalso. apply Hmiss.
    rewrite elem_of_union, !elem_of_singleton in Hk0.
    destruct Hk0 as [-> | ->]; eauto.
  - intros (k0 & Hk0 & Hmiss). unfold animate_walk. mstep.
    repeat match goal with
    | |- context [getitem (joints self) ?k] =>
        let H := fresh "Hc" in
        destruct (joints self !! k) eqn:H;
        [ rewrite (getitem_Some _ _ _ H); mstep
        | rewrite (getitem_None _ _ H); exists k;
          split; [unfold walk_joints;
                  rewrite !elem_of_union, !elem_of_singleton; tauto|];
          split; [by apply not_elem_of_dom|done] ]
    end.
    exfalso. apply Hmiss. unfold walk_joints in Hk0.
    rewrite !elem_of_union, !elem_of_singleton in Hk0.
    repeat (destruct Hk0 as [Hk0| ->]; [|eauto]). subst. eauto.
Qed.

Lemma animate_missing_joint_witness :
  ∃ k, k ∈ walk_joints ∧ (k ∉ dom (joints without_left_elbow))
       ∧ animate_walk approx_sin approx_pi 60 closed_early without_left_elbow
         = (without_left_elbow, Raise (KeyError k)).
Proof.
  apply (animate_missing_joint approx_sin approx_cos approx_pi 60 closed_early
           without_left_elbow).
  exists "left_elbow". split.
  - unfold walk_joints. rewrite !elem_of_union, !elem_of_singleton. tauto.
  - apply not_elem_of_dom. reflexivity.
Defined.

(** X5.  The frames of an animation do not accumulate: each frame places
    the animated joints from the captured originals, so on a figure that
    can be drawn, playing any frames and then a frame [f] leaves exactly
    the figure that playing [f] alone leaves. *)
Theorem frames_do_not_accumulate (np_sin np_cos : Qc → Qc) (np_pi : Qc)
    (frames : Z) (before : list Z) (f : Z) (self : StickFigure Qc)
    (oe ow : Qc * Qc) (op : pose) :
  frames ≠ 0%Z → valid_figure self → walk_joints ⊆ dom op →
  for_each (before ++ [f]) (wave_update np_sin np_cos np_pi frames oe ow) self
  = wave_update np_sin np_cos np_pi frames oe ow f self
  ∧ for_each (before ++ [f]) (walk_update np_sin np_pi frames op) self
    = walk_update np_sin np_pi frames op f self.
Proof.
  intros Hne Hvalid Hop.
  assert (Hin : ∀ k, k ∈ walk_joints → k ∈ dom (joints self)).
  { intros k Hk. destruct Hvalid as [-> _]. revert Hk. unfold walk_joints.
    rewrite !elem_of_union, !elem_of_singleton. intros H. apply elem_of_dom.
    repeat (destruct H as [H| ->]; [|by eexists]). subst. by eexists. }
  assert (Hw : ∀ k, k ∈ walk_joints → k ∈ walk_joints) by done.
  split.
  - rewrite for_each_app.
    pose proof (for_each_inv (agree_off {["right_elbow"; "right_wrist"]} self)
                  before (wave_update np_sin np_cos np_pi frames oe ow)
                  (λ a s _ Hs, wave_update_agree np_sin np_cos np_pi frames a
                                  oe ow self s Hs)
                  self (agree_off_refl _ _)) as Hinv.
    pose proof (for_each_ok (agree_off {["right_elbow"; "right_wrist"]} self)
                  before (wave_update np_sin np_cos np_pi frames oe ow)
                  (λ a s _ Hs,
                     conj (wave_update_agree np_sin np_cos np_pi frames a
                             oe ow self s Hs)
                          (wave_update_ok np_sin np_cos np_pi frames a
                             oe ow self s Hne Hvalid Hs))
                  self (agree_off_refl _ _)) as Hok.
    destruct (for_each before _ self) as [s1 [[]|e]]; [|done]. cbn in Hinv.
    rewrite for_each_singleton, !wave_update_run by done. cbn zeta.
    match goal with |- (?a, _) = (?b, _) => assert (Heq : a = b) end.
    { apply (agree_off_eq ({["right_elbow"; "right_wrist"]}
                             ∖ {["right_elbow"]} ∖ {["right_wrist"]})).
      { set_solver. }
      apply update_joint_agree_both.
      - apply update_joint_agree_both; [done|].
        apply Hin. unfold walk_joints.
        rewrite !elem_of_union, !elem_of_singleton. tauto.
      - rewrite update_joint_dom. apply Hin. unfold walk_joints.
        rewrite !elem_of_union, !elem_of_singleton. tauto. }
    by rewrite Heq.
  - rewrite for_each_app.
    pose proof (for_each_inv (agree_off walk_moved self)
                  before (walk_update np_sin np_pi frames op)
                  (λ a s _ Hs, walk_update_agree_moved np_sin np_pi frames a
                                  op self s Hs)
                  self (agree_off_refl _ _)) as Hinv.
    pose proof (for_each_ok (agree_off walk_moved self)
                  before (walk_update np_sin np_pi frames op)
                  (λ a s _ Hs,
                     conj (walk_update_agree_moved np_sin np_pi frames a
                             op self s Hs)
                          (walk_update_ok np_sin np_pi frames a op self s
                             Hne Hvalid Hop
                             (agree_off_mono _ _ _ _ walk_moved_joints Hs)))
                  self (agree_off_refl _ _)) as Hok.
    destruct (for_each before _ self) as [s1 [[]|e]]; [|done]. cbn in Hinv.
    rewrite for_each_singleton.
    assert (Hget : ∀ k, k ∈ walk_joints → ∃ v, op !! k = Some v).
    { intros k Hk. by apply elem_of_dom, Hop. }
    destruct (Hget "left_knee") as [lk Hlk];
      [unfold walk_joints; rewrite !elem_of_union, !elem_of_singleton; tauto|].
    destruct (Hget "left_ankle") as [la Hla];
      [unfold walk_joints; rewrite !elem_of_union, !elem_of_singleton; tauto|].
    destruct (Hget "right_knee") as [rk Hrk];
      [unfold walk_joints; rewrite !elem_of_union, !elem_of_singleton; tauto|].
    destruct (Hget "right_ankle") as [ra Hra];
      [unfold walk_joints; rewrite !elem_of_union, !elem_of_singleton; tauto|].
    destruct (Hget "left_wrist") as [lw Hlw];
      [unfold walk_joints; rewrite !elem_of_union, !elem_of_singleton; tauto|].
    destruct (Hget "right_wrist") as [rw Hrw];
      [unfold walk_joints; rewrite !elem_of_union, !elem_of_singleton; tauto|].
    rewrite !(walk_update_run np_sin np_pi frames f op _ lk la rk ra lw rw)
      by done.
    cbn zeta.
    match goal with |- (?a, _) = (?b, _) => assert (Heq : a = b) end.
    { apply (agree_off_eq (walk_moved ∖ {["left_knee"]} ∖ {["left_ankle"]}
                             ∖ {["right_knee"]} ∖ {["right_ankle"]}
                             ∖ {["left_wrist"]} ∖ {["right_wrist"]})).
      { intros k. unfold walk_moved.
        rewrite !elem_of_difference, !elem_of_union, !elem_of_singleton.
        tauto. }
      repeat (apply update_joint_agree_both;
              [|rewrite ?update_joint_dom; apply Hin; unfold walk_joints;
                rewrite !elem_of_union, !elem_of_singleton; tauto]).
      done. }
    by rewrite Heq.
Qed.

Lemma frames_do_not_accumulate_witness :
  for_each (app [0%Z; 1%Z; 2%Z] [7%Z])
    (wave_update approx_sin approx_cos approx_pi 60
       (lit 0.5, lit 0.9) (lit 0.6, lit 0.5)) new_StickFigure
  = wave_update approx_sin approx_cos approx_pi 60
      (lit 0.5, lit 0.9) (lit 0.6, lit 0.5) 7 new_StickFigure
  ∧ for_each (app [0%Z; 1%Z; 2%Z] [7%Z])
      (walk_update approx_sin approx_pi 60 default_joints) new_StickFigure
    = walk_update approx_sin approx_pi 60 default_joints 7 new_StickFigure.
Proof.
  apply (frames_do_not_accumulate approx_sin approx_cos approx_pi 60
           [0; 1; 2]%Z 7 new_StickFigure _ _ default_joints).
  - discriminate.
  - apply valid_new_StickFigure.
  - intros k Hk. apply elem_of_dom. revert Hk. unfold walk_joints.
    rewrite !elem_of_union, !elem_of_singleton. intros H.
    repeat (destruct H as [H| ->]; [|by eexists]). subst. by eexists.
Defined.

(** X6.  A frame of the walk with phase angle [θ] puts the left knee and
    ankle at their originals plus offsets in [sin θ], the right knee and
    ankle at theirs plus the same offsets in [sin (θ + π)], and swings each
    wrist with the opposite leg: the left wrist rises by [0.1 * sin (θ + π)]
    like the right knee, the right wrist by [0.1 * sin θ] like the left
    knee.  Knees and wrists keep their [x]; every other joint, the elbows
    included, is where it was. *)
Theorem walk_frame_offsets (np_sin : Qc → Qc) (np_pi : Qc) (frames frame : Z)
    (op : pose) (self : StickFigure Qc) (lk la rk ra lw rw : Qc * Qc) :
  frames ≠ 0%Z → walk_moved ⊆ dom (joints self) →
  op !! "left_knee" = Some lk → op !! "left_ankle" = Some la →
  op !! "right_knee" = Some rk → op !! "right_ankle" = Some ra →
  op !! "left_wrist" = Some lw → op !! "right_wrist" = Some rw →
  let θ := phase np_pi (Qc_of_Z frame / Qc_of_Z frames) in
  let after := (walk_update np_sin np_pi frames op frame self).1 in
  joints after !! "left_knee" = Some (lk.1, lk.2 + lit 0.1 * np_sin θ)
  ∧ joints after !! "left_ankle"
    = Some (la.1 + lit 0.05 * np_sin θ, la.2 + lit 0.15 * np_sin θ)
  ∧ joints after !! "right_knee"
    = Some (rk.1, rk.2 + lit 0.1 * np_sin (θ + np_pi))
  ∧ joints after !! "right_ankle"
    = Some (ra.1 + lit 0.05 * np_sin (θ + np_pi),
            ra.2 + lit 0.15 * np_sin (θ + np_pi))
  ∧ joints after !! "left_wrist"
    = Some (lw.1, lw.2 + lit 0.1 * np_sin (θ + np_pi))
  ∧ joints after !! "right_wrist" = Some (rw.1, rw.2 + lit 0.1 * np_sin θ)
  ∧ (∀ k, k ∉ walk_moved → joints after !! k = joints self !! k).
Proof.
  intros Hne Hsub Hlk Hla Hrk Hra Hlw Hrw θ after. subst after.
  rewrite (walk_update_run np_sin np_pi frames frame op self lk la rk ra lw rw)
    by done.
  cbn [fst]. fold θ.
  assert (Hin : ∀ k, k ∈ walk_moved → k ∈ dom (joints self)) by apply Hsub.
  repeat split;
    try (repeat (rewrite update_joint_lookup_ne by done);
         apply update_joint_lookup; rewrite ?update_joint_dom; apply Hin;
         unfold walk_moved; rewrite !elem_of_union, !elem_of_singleton; tauto).
  intros k Hk. unfold walk_moved in Hk.
  rewrite !elem_of_union, !elem_of_singleton in Hk.
  repeat (rewrite update_joint_lookup_ne by (intros ->; tauto)). done.
Qed.

Lemma walk_frame_offsets_witness :
  let θ := phase approx_pi (Qc_of_Z 0 / Qc_of_Z 60) in
  let after :=
    (walk_update approx_sin approx_pi 60 default_joints 0 new_StickFigure).1 in
  joints after !! "left_knee"
    = Some (lit (-0.2), lit 0.0 + lit 0.1 * approx_sin θ)
  ∧ joints after !! "left_ankle"
    = Some (lit (-0.2) + lit 0.05 * approx_sin θ,
            lit (-0.5) + lit 0.15 * approx_sin θ)
  ∧ joints after !! "right_knee"
    = Some (lit 0.2, lit 0.0 + lit 0.1 * approx_sin (θ + approx_pi))
  ∧ joints after !! "right_ankle"
    = Some (lit 0.2 + lit 0.05 * approx_sin (θ + approx_pi),
            lit (-0.5) + lit 0.15 * approx_sin (θ + approx_pi))
  ∧ joints after !! "left_wrist"
    = Some (lit (-0.6), lit 0.5 + lit 0.1 * approx_sin (θ + approx_pi))
  ∧ joints after !! "right_wrist"
    = Some (lit 0.6, lit 0.5 + lit 0.1 * approx_sin θ)
  ∧ (∀ k, k ∉ walk_moved → joints after !! k = joints new_StickFigure !! k).
Proof.
  apply (walk_frame_offsets approx_sin approx_pi 60 0 default_joints
           new_StickFigure
           (lit (-0.2), lit 0.0) (lit (-0.2), lit (-0.5))
           (lit 0.2, lit 0.0) (lit 0.2, lit (-0.5))
           (lit (-0.6), lit 0.5) (lit 0.6, lit 0.5)).
  - discriminate.
  - intros k Hk. apply elem_of_dom. revert Hk. unfold walk_moved.
    rewrite !elem_of_union, !elem_of_singleton. intros H.
    repeat (destruct H as [H| ->]; [|by eexists]). subst. by eexists.
  - reflexivity.
  - reflexivity.
  - reflexivity.
  - reflexivity.
  - reflexivity.
  - reflexivity.
Defined.

(** ** Keyframe playback *)

Lemma foldl_Qcplus (l : list Qc) (c : Qc) : foldl Qcplus c l = c + py_sum l.
Proof.
  unfold py_sum. revert c. induction l as [|d rest IH]; intros c; cbn.
  - ring.
  - rewrite (IH (c + d)), (IH (0 + d)). ring.
Qed.

Lemma py_sum_cons (d : Qc) (l : list Qc) : py_sum (d :: l) = d + py_sum l.
Proof. unfold py_sum at 1. cbn. rewrite foldl_Qcplus. ring. Qed.

Lemma find_segment_Some (l : list Qc) :
  ∀ (i : nat) (e c : Qc) (j : nat) (cj d : Qc),
    find_segment l i e c = Some (j, cj, d) →
    ∃ k : nat,
      j = (i + k)%nat ∧ l !! k = Some d
      ∧ cj = c + py_sum (take k l)
      ∧ e ≤ cj + d
      ∧ ∀ k' : nat, (k' < k)%nat → c + py_sum (take (S k') l) < e.
Proof.
  induction l as [|d0 rest IH]; intros i e c j cj d Hf; [done|].
  cbn in Hf. case_bool_decide as Hle.
  - injection Hf as <- <- <-. exists 0%nat.
    split; [lia|]. split; [done|].
    split; [rewrite take_0; change (py_sum []) with 0; ring|].
    split; [done|]. intros k' Hk'. lia.
  - apply IH in Hf as (k & -> & Hk & -> & He & Hbefore).
    exists (S k). split; [lia|]. split; [done|].
    split; [cbn [firstn]; rewrite py_sum_cons; ring|].
    split; [done|]. intros [|k'] Hk'.
    + cbn [firstn]. rewrite py_sum_cons, take_0. change (py_sum []) with 0.
      replace (c + (d0 + 0)) with (c + d0) by ring. by apply Qcnot_le_lt.
    + cbn [firstn]. rewrite py_sum_cons.
      replace (c + (d0 + py_sum (take (S k') rest)))
        with (c + d0 + py_sum (take (S k') rest)) by ring.
      apply Hbefore. lia.
Qed.

Lemma find_segment_None (l : list Qc) :
  ∀ (i : nat) (e c : Qc),
    find_segment l i e c = None → l = [] ∨ c + py_sum l < e.
Proof.
  induction l as [|d0 rest IH]; intros i e c Hf; [by left|]. right.
  cbn in Hf. case_bool_decide as Hle; [done|].
  rewrite py_sum_cons. apply IH in Hf as [-> | Hf].
  - change (py_sum []) with 0. replace (c + (d0 + 0)) with (c + d0) by ring.
    by apply Qcnot_le_lt.
  - by replace (c + (d0 + py_sum rest)) with (c + d0 + py_sum rest) by ring.
Qed.

Lemma Qcdiv_nonneg (x d : Qc) : 0 < d → 0 ≤ x → 0 ≤ x / d.
Proof.
  intros Hd H0.
  assert (Hne : d ≠ 0).
  { intros ->. by apply (Qclt_not_eq 0 0). }
  assert (Hx : x / d * d = x) by (field; done).
  apply (Qcmult_lt_0_le_reg_r _ _ d Hd). by rewrite Hx, Qcmult_0_l.
Qed.

(** X7.  The keyframe in which a frame of the playback falls.  For a time
    [elapsed] that is not negative and durations that are all positive, the
    keyframe [i] that the loop stops at is the first whose end is not before
    [elapsed]: the cumulative time is what adding the durations before [i]
    to [0], one after the other, gives; [elapsed] lies between it and the
    end of keyframe [i]; and the progress [t] that is computed from them is
    not negative. *)
Theorem segment_choice (durations : list Qc) (elapsed : Qc)
    (i : nat) (cumulative duration : Qc) :
  0 ≤ elapsed → (∀ d, d ∈ durations → 0 < d) →
  find_segment durations 0 elapsed 0 = Some (i, cumulative, duration) →
  durations !! i = Some duration
  ∧ cumulative = foldl Qcplus 0 (take i durations)
  ∧ (∀ j : nat, (j < i)%nat →
       foldl Qcplus 0 (take (S j) durations) < elapsed)
  ∧ cumulative ≤ elapsed ∧ elapsed ≤ cumulative + duration
  ∧ 0 ≤ (elapsed - cumulative) / duration.
Proof.
  intros He Hpos Hf.
  apply find_segment_Some in Hf as (k & -> & Hk & -> & Hend & Hbefore).
  cbn [Nat.add]. rewrite Qcplus_0_l in *.
  assert (Hb : ∀ j : nat, (j < k)%nat → py_sum (take (S j) durations) < elapsed).
  { intros j Hj. specialize (Hbefore j Hj). by rewrite Qcplus_0_l in Hbefore. }
  assert (Hc : py_sum (take k durations) ≤ elapsed).
  { destruct k as [|k]; [by cbn|]. apply Qclt_le_weak, Hb. lia. }
  split; [done|]. split; [done|]. split; [exact Hb|]. split; [done|].
  split; [done|].
  apply Qcdiv_nonneg.
  - apply Hpos. by eapply list_elem_of_lookup_2.
  - apply (Qcplus_le_mono_r _ _ (py_sum (take k durations))).
    rewrite Qcplus_0_l.
    by replace (elapsed - py_sum (take k durations) + py_sum (take k durations))
      with elapsed by ring.
Qed.

Lemma segment_choice_witness :
  timings demo_sequence !! 1%nat = Some (lit 1.5)
  ∧ lit 1 = foldl Qcplus 0 (take 1 (timings demo_sequence))
  ∧ (∀ j : nat, (j < 1)%nat →
       foldl Qcplus 0 (take (S j) (timings demo_sequence)) < lit 1.75)
  ∧ lit 1 ≤ lit 1.75 ∧ lit 1.75 ≤ lit 1 + lit 1.5
  ∧ 0 ≤ (lit 1.75 - lit 1) / lit 1.5.
Proof.
  apply (segment_choice (timings demo_sequence) (lit 1.75) 1 (lit 1) (lit 1.5)).
  - intros H. discriminate H.
  - intros d Hd. cbn in Hd.
    repeat (apply elem_of_cons in Hd as [->|Hd]; [reflexivity|]).
    by apply elem_of_nil in Hd.
  - vm_compute. reflexivity.
Defined.

Lemma py_sum_app (l1 l2 : list Qc) : py_sum (l1 ++ l2) = py_sum l1 + py_sum l2.
Proof.
  induction l1 as [|d rest IH].
  - change (py_sum []) with 0. cbn [app]. ring.
  - cbn [app]. rewrite !py_sum_cons, IH. ring.
Qed.

Lemma py_sum_take_S (l : list Qc) (i : nat) (d : Qc) :
  l !! i = Some d → py_sum (take (S i) l) = py_sum (take i l) + d.
Proof.
  intros Hi. rewrite (take_S_r _ _ _ Hi), py_sum_app, py_sum_cons.
  change (py_sum []) with 0. ring.
Qed.

Lemma Qc_of_Z_lt (a b : Z) : (a < b)%Z → Qc_of_Z a < Qc_of_Z b.
Proof. intros H. unfold Qclt. cbn. by rewrite <- Zlt_Qlt. Qed.

Lemma Qc_of_Z_le (a b : Z) : (a ≤ b)%Z → Qc_of_Z a ≤ Qc_of_Z b.
Proof. intros H. unfold Qcle. cbn. by rewrite <- Zle_Qle. Qed.

Lemma Qc_of_Z_0 : Qc_of_Z 0 = 0.
Proof. by apply Qc_is_canon. Qed.

Lemma py_int_le (q : Qc) : (0 < py_int q)%Z → Qc_of_Z (py_int q) ≤ q.
Proof.
  unfold py_int. case_bool_decide as Hq; intros Hpos.
  - unfold Qcle. cbn. apply Qfloor_le.
  - exfalso. apply Qcnot_le_lt in Hq.
    assert (Hc : (Qceiling q ≤ Qceiling 0)%Z).
    { apply Qceiling_resp_le. apply Qlt_le_weak. exact Hq. }
    change (Qceiling 0) with 0%Z in Hc. lia.
Qed.

Lemma elapsed_bounds (frame fps : Z) (T : Qc) :
  (0 < fps)%Z → (0 ≤ frame)%Z → Qc_of_Z frame < T * Qc_of_Z fps →
  0 ≤ Qc_of_Z frame / Qc_of_Z fps ∧ Qc_of_Z frame / Qc_of_Z fps < T.
Proof.
  intros Hfps Hframe Hlt.
  assert (Hpos : 0 < Qc_of_Z fps).
  { rewrite <- Qc_of_Z_0. by apply Qc_of_Z_lt. }
  assert (Hinv : 0 < / Qc_of_Z fps) by by apply Qcinv_pos.
  assert (Hne : Qc_of_Z fps ≠ 0).
  { intros H. rewrite H in Hpos. by apply (Qclt_not_eq 0 0). }
  unfold Qcdiv. split.
  - rewrite <- (Qcmult_0_l (/ Qc_of_Z fps)).
    apply Qcmult_le_compat_r; [|by apply Qclt_le_weak].
    rewrite <- Qc_of_Z_0. by apply Qc_of_Z_le.
  - replace T with (T * Qc_of_Z fps * / Qc_of_Z fps) by (field; done).
    by apply Qcmult_lt_compat_r.
Qed.

(** X8.  Every frame that [play] asks the animation to play falls in a
    keyframe: for a positive frame rate and a frame number from [0] up to,
    not including, [total_frames], the loop of the callback stops at some
    keyframe and never runs past the last one. *)
Theorem played_frames_find_segment (self : PoseSequence) (fps frame : Z) :
  (0 < fps)%Z → (0 ≤ frame < total_frames self fps)%Z →
  ∃ i cumulative duration,
    find_segment (timings self) 0 (Qc_of_Z frame / Qc_of_Z fps) 0
    = Some (i, cumulative, duration).
Proof.
  intros Hfps [Hframe Htotal]. unfold total_frames in Htotal.
  assert (Hlt : Qc_of_Z frame < py_sum (timings self) * Qc_of_Z fps).
  { eapply Qclt_le_trans; [apply Qc_of_Z_lt, Htotal|].
    apply py_int_le. lia. }
  destruct (elapsed_bounds frame fps _ Hfps Hframe Hlt) as [H0 HT].
  destruct (find_segment _ _ _ _) as [[[i c] d]|] eqn:Hf; [by eauto|].
  exfalso. apply find_segment_None in Hf as [Hnil|Hpast].
  - rewrite Hnil in HT. change (py_sum []) with 0 in HT.
    by apply (Qcle_not_lt _ _ H0).
  - rewrite Qcplus_0_l in Hpast.
    apply (Qclt_not_le _ _ Hpast). by apply Qclt_le_weak.
Qed.

Lemma played_frames_find_segment_witness :
  ∃ i cumulative duration,
    find_segment (timings demo_sequence) 0 (Qc_of_Z 99 / Qc_of_Z 20) 0
    = Some (i, cumulative, duration).
Proof.
  apply (played_frames_find_segment demo_sequence 20 99).
  - reflexivity.
  - split; [discriminate|]. vm_compute. reflexivity.
Defined.

(** What a frame of the playback does to the figure of [play]. *)
Lemma play_update_interpolates (self : PoseSequence) (fps frame : Z)
    (s : StickFigure Qc) (i : nat) (c d : Qc) (A B : pose) :
  fps ≠ 0%Z →
  find_segment (timings self) 0 (Qc_of_Z frame / Qc_of_Z fps) 0 = Some (i, c, d) →
  d ≠ 0 → poses self !! i = Some A → poses self !! (i + 1)%nat = Some B →
  dom A ⊆ dom B →
  let s' := mkStickFigure (blend A B ((Qc_of_Z frame / Qc_of_Z fps - c) / d))
                          (skeleton_connections s) in
  play_update self fps frame s = (s', (plot_skeleton s').2).
Proof.
  intros Hfps Hf Hd HA HB Hsub s'. unfold play_update, true_div.
  rewrite decide_False by done. mstep. rewrite Hf.
  rewrite bool_decide_eq_true_2 by (by eapply lookup_lt_Some).
  mstep. unfold num_div. rewrite decide_False by done. mstep.
  unfold index. rewrite HA. mstep. rewrite HB. mstep.
  rewrite interpolate_ok by done. mstep. fold s'.
  generalize (plot_skeleton_state s'). destruct (plot_skeleton s') as [s3 r].
  cbn. by intros ->.
Qed.

Lemma play_update_holds (self : PoseSequence) (fps frame : Z)
    (s : StickFigure Qc) :
  fps ≠ 0%Z →
  match find_segment (timings self) 0 (Qc_of_Z frame / Qc_of_Z fps) 0 with
  | Some (i, _, _) => (length (poses self) ≤ i + 1)%nat
  | None => True
  end →
  play_update self fps frame s = (s, (plot_skeleton s).2).
Proof.
  intros Hfps Hf. unfold play_update, true_div.
  rewrite decide_False by done. mstep.
  assert (Hplot : plot_skeleton s = (s, (plot_skeleton s).2)).
  { generalize (plot_skeleton_state s). destruct (plot_skeleton s) as [s3 r].
    cbn. by intros ->. }
  destruct (find_segment _ _ _ _) as [[[i c] d]|].
  - rewrite bool_decide_eq_false_2 by lia. by mstep.
  - by mstep.
Qed.

(** X9.  A frame that falls in a keyframe [i] which is not the last pose
    replaces the joints of the figure by the blend of pose [i] and pose
    [i + 1] at the progress of the frame, whatever joints the figure had:
    its joint names are then those of pose [i]. *)
Theorem play_frame_interpolates (self : PoseSequence) (fps frame : Z)
    (s : StickFigure Qc) (i : nat) (c d : Qc) (A B : pose) :
  fps ≠ 0%Z →
  find_segment (timings self) 0 (Qc_of_Z frame / Qc_of_Z fps) 0 = Some (i, c, d) →
  d ≠ 0 → poses self !! i = Some A → poses self !! (i + 1)%nat = Some B →
  dom A ⊆ dom B →
  let after := (play_update self fps frame s).1 in
  joints after = blend A B ((Qc_of_Z frame / Qc_of_Z fps - c) / d)
  ∧ dom (joints after) = dom A
  ∧ skeleton_connections after = skeleton_connections s.
Proof.
  intros Hfps Hf Hd HA HB Hsub after. subst after.
  rewrite (play_update_interpolates self fps frame s i c d A B) by done.
  cbn. split; [done|]. split; [|done]. rewrite dom_blend. set_solver.
Qed.

Lemma play_frame_interpolates_witness :
  let after := (play_update demo_sequence 20 35 new_StickFigure).1 in
  joints after
    = blend arms_raised squat ((Qc_of_Z 35 / Qc_of_Z 20 - lit 1) / lit 1.5)
  ∧ dom (joints after) = dom arms_raised
  ∧ skeleton_connections after = skeleton_connections new_StickFigure.
Proof.
  apply (play_frame_interpolates demo_sequence 20 35 new_StickFigure
           1 (lit 1) (lit 1.5) arms_raised squat).
  - discriminate.
  - vm_compute. reflexivity.
  - intros H. discriminate H.
  - reflexivity.
  - reflexivity.
  - intros k Hk. apply elem_of_dom. apply elem_of_dom in Hk as [v Hv].
    unfold squat. rewrite !lookup_insert_is_Some'.
    do 5 right. apply elem_of_dom.
    assert (dom arms_raised = dom default_joints) as <- by reflexivity.
    apply elem_of_dom. eauto.
Defined.

(** X10.  Once the time of a frame is past the end of every keyframe but
    the last, the frame leaves the figure as it is: during the duration of
    the last keyframe, and after the end of the sequence, nothing moves. *)
Theorem play_frame_holds (self : PoseSequence) (fps frame : Z)
    (s : StickFigure Qc) :
  fps ≠ 0%Z →
  (length (poses self) ≤ length (timings self))%nat →
  (∀ j : nat, (j + 1 < length (timings self))%nat →
     py_sum (take (S j) (timings self)) < Qc_of_Z frame / Qc_of_Z fps) →
  play_update self fps frame s = (s, (plot_skeleton s).2).
Proof.
  intros Hfps Hlen Hpast. apply play_update_holds; [done|].
  destruct (find_segment _ _ _ _) as [[[i c] d]|] eqn:Hf; [|done].
  apply find_segment_Some in Hf as (k & -> & Hk & -> & Hend & _).
  cbn [Nat.add]. rewrite Qcplus_0_l in Hend.
  rewrite <- (py_sum_take_S _ _ _ Hk) in Hend.
  destruct (decide (k + 1 < length (timings self))%nat) as [Hlt|Hge]; [|lia].
  exfalso. by apply (Qclt_not_le _ _ (Hpast k Hlt)).
Qed.

Lemma play_frame_holds_witness :
  play_update demo_sequence 20 90 new_StickFigure
  = (new_StickFigure, (plot_skeleton new_StickFigure).2).
Proof.
  apply (play_frame_holds demo_sequence 20 90 new_StickFigure).
  - discriminate.
  - reflexivity.
  - intros j Hj. cbn in Hj.
    assert (Hcases : j = 0%nat ∨ j = 1%nat ∨ j = 2%nat) by lia.
    destruct Hcases as [-> | [-> | ->]]; reflexivity.
Defined.

(** X11.  A keyframe of duration [0] that is not the last pose makes the
    frame that falls in it raise [ZeroDivisionError], the figure untouched;
    and a frame rate of [0] makes [play] raise it before any frame. *)
Theorem play_zero_division (self : PoseSequence) (fps frame : Z)
    (s : StickFigure Qc) (run : playback) (i : nat) (c : Qc) :
  (fps ≠ 0%Z →
   find_segment (timings self) 0 (Qc_of_Z frame / Qc_of_Z fps) 0 = Some (i, c, 0) →
   (i + 1 < length (poses self))%nat →
   play_update self fps frame s = (s, Raise ZeroDivisionError))
  ∧ play self 0 run = (new_StickFigure, Raise ZeroDivisionError).
Proof.
  split; [|done].
  intros Hfps Hf Hi. unfold play_update, true_div.
  rewrite decide_False by done. mstep. rewrite Hf.
  rewrite bool_decide_eq_true_2 by done. mstep. unfold num_div.
  by rewrite decide_True.
Qed.

Lemma play_zero_division_witness :
  play_update zero_first_sequence 30 0 new_StickFigure
  = (new_StickFigure, Raise ZeroDivisionError).
Proof.
  refine (proj1 (play_zero_division zero_first_sequence 30 0 new_StickFigure
                   closed_early 0 0) _ _ _).
  - discriminate.
  - vm_compute. reflexivity.
  - cbn. lia.
Defined.

(** X12.  [play] on a sequence of valid poses with positive durations, at a
    positive frame rate, returns whenever the animation plays frames within
    [total_frames] and no exception escapes the display: no frame raises,
    and the figure it leaves has the fifteen joints. *)
Theorem play_returns (self : PoseSequence) (fps : Z) (run : playback) :
  (0 < fps)%Z →
  (∀ d, d ∈ timings self → 0 < d) →
  (∀ P, P ∈ poses self → valid_pose P) →
  (∀ f, f ∈ played run → (0 ≤ f < total_frames self fps)%Z) →
  escaped run = None →
  ∃ s', play self fps run = (s', Ok tt) ∧ valid_figure s'.
Proof.
  intros Hfps Hpos Hvalid Hframes Hrun.
  assert (Hne : fps ≠ 0%Z) by lia.
  assert (Hstep : ∀ f s, f ∈ played run → valid_figure s →
            valid_figure (play_update self fps f s).1
            ∧ (play_update self fps f s).2 = Ok tt).
  { intros f s Hf [Hdom Hbones].
    destruct (played_frames_find_segment self fps f Hfps (Hframes f Hf))
      as (i & c & d & Hseg).
    destruct (decide (i + 1 < length (poses self))%nat) as [Hi|Hi].
    - destruct (lookup_lt_is_Some_2 (poses self) i) as [A HA]; [lia|].
      destruct (lookup_lt_is_Some_2 (poses self) (i + 1)) as [B HB]; [lia|].
      pose proof (Hvalid A (list_elem_of_lookup_2 _ _ _ HA)) as HvA.
      pose proof (Hvalid B (list_elem_of_lookup_2 _ _ _ HB)) as HvB.
      assert (Hd : 0 < d).
      { apply find_segment_Some in Hseg as (k & _ & Hk & _).
        apply Hpos. by eapply list_elem_of_lookup_2. }
      rewrite (play_update_interpolates self fps f s i c d A B); try done.
      + cbn. assert (Hv : valid_figure
          (mkStickFigure (blend A B ((Qc_of_Z f / Qc_of_Z fps - c) / d))
                         (skeleton_connections s))).
        { split.
          - unfold valid_pose. cbn. rewrite dom_blend, HvA, HvB. set_solver.
          - intros e He. cbn in *. rewrite dom_blend, HvA, HvB.
            rewrite Hdom in Hbones. destruct (Hbones e He). set_solver. }
        split; [done|]. apply plot_skeleton_ok, Hv.
      + intros ->. by apply (Qclt_not_eq 0 0).
      + by rewrite HvA, HvB.
    - rewrite (play_update_holds self fps f s Hne).
      + cbn. split; [done|]. by apply plot_skeleton_ok.
      + rewrite Hseg. lia. }
  unfold play, true_div. rewrite decide_False by done. mstep.
  pose proof (for_each_inv valid_figure (played run) (play_update self fps)
                (λ a s Ha Hs, proj1 (Hstep a s Ha Hs))
                new_StickFigure valid_new_StickFigure) as Hinv.
  pose proof (for_each_ok valid_figure (played run) (play_update self fps)
                Hstep new_StickFigure valid_new_StickFigure) as Hok.
  destruct (for_each (played run) _ new_StickFigure) as [s1 [[]|e]]; [|done].
  unfold finish. rewrite Hrun. mstep. by exists s1.
Qed.

Lemma play_returns_witness :
  ∃ s', play demo_sequence 20 closed_early = (s', Ok tt) ∧ valid_figure s'.
Proof.
  apply (play_returns demo_sequence 20 closed_early).
  - reflexivity.
  - intros d Hd. cbn in Hd.
    repeat (apply elem_of_cons in Hd as [->|Hd]; [reflexivity|]).
    by apply elem_of_nil in Hd.
  - intros P HP. cbn in HP.
    repeat (apply elem_of_cons in HP as [->|HP]; [reflexivity|]).
    by apply elem_of_nil in HP.
  - intros f Hf. cbn in Hf.
    repeat (apply elem_of_cons in Hf as [->|Hf];
            [split; [discriminate|vm_compute; reflexivity]|]).
    by apply elem_of_nil in Hf.
  - reflexivity.
Defined.

(** ** The serializer: what a saved figure comes back as, and bad files *)

(** X13.  Loading what [save_pose] wrote for any figure gives the default
    figure overwritten with the saved joints: a joint the saved figure lacked
    comes back at its default position, a joint beyond the fifteen is kept,
    and the bones are always the default bones, whatever bones were saved. *)
Theorem load_save_overlay (stick_figure : StickFigure Qc) (filename : string)
    (fs : files) :
  load_pose filename (save_pose stick_figure filename fs)
  = Ok (mkStickFigure
          (prod_map JNum JNum <$> (joints stick_figure ∪ default_joints))
          default_connections).
Proof.
  transitivity
    (Ok (mkStickFigure
           (omap entry_position (joint_record <$> joints stick_figure)
              ∪ joints new_StickFigure_json)
           default_connections)).
  { eapply load_pose_ok.
    - unfold save_pose. apply lookup_insert_eq.
    - reflexivity.
    - intros name coords [pos [<- _]]%lookup_fmap_Some.
      rewrite entry_position_joint_record. eauto. }
  f_equal. f_equal. apply map_eq. intros k.
  cbn [joints new_StickFigure_json new_StickFigure].
  rewrite lookup_union, lookup_omap, !lookup_fmap, lookup_union.
  destruct (joints stick_figure !! k) as [[x y]|];
    cbn [fmap option_fmap option_map mbind option_bind].
  - rewrite entry_position_joint_record. by rewrite !union_Some_l.
  - by rewrite !(left_id None _).
Qed.

(** X14.  [load_pose] on a file that does not exist raises
    [FileNotFoundError]; on a file whose content is not an object it raises
    [TypeError]; on a record whose ['joints'] is not an object it raises
    [AttributeError].  No figure is returned in any of these cases. *)
Theorem load_pose_bad_file (filename : string) (fs : files) :
  (fs !! filename = None → load_pose filename fs = Raise FileNotFoundError)
  ∧ (∀ v, fs !! filename = Some v → (∀ fields, v ≠ JObj fields) →
          load_pose filename fs = Raise TypeError)
  ∧ (∀ data v, fs !! filename = Some (JObj data) →
               data !! "joints" = Some v → (∀ fields, v ≠ JObj fields) →
               load_pose filename fs = Raise AttributeError).
Proof.
  split; [|split].
  - intros Hf. unfold load_pose, read_json. by rewrite Hf.
  - intros v Hf Hv. unfold load_pose, read_json. rewrite Hf. cbn.
    destruct v; try done. by destruct (Hv fields).
  - intros data v Hf Hj Hv. unfold load_pose, read_json. rewrite Hf. cbn.
    rewrite (getitem_Some _ _ _ Hj). cbn.
    destruct v; try done. by destruct (Hv fields).
Qed.

(** ** The physics toy: ceiling, sideways motion, free fall *)

Lemma run_updates_S_r (n : nat) :
  ∀ s, run_updates (S n) s
       = match run_updates n s with
         | (s', Ok _) => update s'
         | (s', Raise e) => (s', Raise e)
         end.
Proof.
  induction n as [|n IH]; intros s.
  - cbn [run_updates]. mstep. by destruct (update s) as [s1 [[]|e]].
  - change (run_updates (S (S n)) s) with ((update ;; run_updates (S n)) s).
    change (run_updates (S n) s) with ((update ;; run_updates n) s).
    mstep. destruct (update s) as [s1 [[]|e]]; [|done]. apply IH.
Qed.

Lemma run_updates_sim_ok (n : nat) (s : PhysicsSimulator) :
  sim_ok s →
  ∃ s', run_updates n s = (s', Ok tt) ∧ sim_ok s'
        ∧ gravity s' = gravity s ∧ constraints s' = constraints s.
Proof.
  intros Hok. induction n as [|n (s1 & Hrun & Hok1 & Hg1 & Hc1)].
  - by exists s.
  - rewrite run_updates_S_r, Hrun.
    destruct (update_run s1 Hok1) as (s2 & Hrun2 & Hg2 & Hc2 & _).
    exists s2. split; [done|]. split; [by eapply update_sim_ok|].
    split; congruence.
Qed.

Lemma clamp_ceiling (c : constraint) (pv : (Qc * Qc) * (Qc * Qc)) (hi : Qc) :
  c !! "y_max" = Some hi → (clamp_y_max c pv).1.2 ≤ hi.
Proof.
  intros Hhi. unfold clamp_y_max. rewrite Hhi.
  case_bool_decide as Hlt; cbn; [apply Qcle_refl|by apply Qcnot_lt_le].
Qed.

Lemma step_joint_x (g : Qc) (c : option constraint) (pos vel : Qc * Qc) :
  (step_joint g c pos vel).1.1 = pos.1 + vel.1
  ∧ (step_joint g c pos vel).2.1 = vel.1.
Proof.
  unfold step_joint, clamp_y_max, clamp_y_min, integrate.
  destruct c as [c|]; [|done].
  destruct (c !! "y_min") as [lo|]; [case_bool_decide|];
    (destruct (c !! "y_max") as [hi|]; [case_bool_decide|]); done.
Qed.

Lemma update_below_ceiling (s s' : PhysicsSimulator) :
  sim_ok s → update s = (s', Ok tt) → below_ceiling s'.
Proof.
  intros Hok Hrun. destruct (update_run s Hok)
    as (s1 & Hrun1 & Hg & Hc & _ & Hdj & Hdv & Hstep).
  rewrite Hrun in Hrun1. injection Hrun1 as <-.
  destruct Hok as (Hd & Hcd & _).
  intros k c hi Hk Hhi. rewrite Hc in Hk.
  assert (Hp : is_Some (joints (sf s) !! k)).
  { apply elem_of_dom, Hcd, elem_of_dom. eauto. }
  assert (Hv : is_Some (velocities s !! k)).
  { apply elem_of_dom. rewrite Hd. by apply elem_of_dom. }
  destruct Hp as [pos Hp], Hv as [vel Hv].
  destruct (Hstep k pos vel Hp Hv) as [Hj _]. rewrite Hk in Hj. cbn in Hj.
  pose proof (clamp_ceiling c (clamp_y_min c (integrate (gravity s) pos vel))
                hi Hhi) as Hceil.
  destruct (clamp_y_max c (clamp_y_min c (integrate (gravity s) pos vel)))
    as [[x y] v']. cbn in *. eauto.
Qed.

(** X15.  On a simulator in good order, after any number of steps (at least
    one) every joint with a [y_max] is at or below it. *)
Theorem y_max_ceiling (s : PhysicsSimulator) (n : nat) :
  sim_ok s →
  ∃ s', run_updates (S n) s = (s', Ok tt) ∧ below_ceiling s'.
Proof.
  intros Hok. rewrite run_updates_S_r.
  destruct (run_updates_sim_ok n s Hok) as (s1 & -> & Hok1 & _ & _).
  destruct (update_run s1 Hok1) as (s2 & Hrun2 & _).
  exists s2. split; [done|]. by eapply update_below_ceiling.
Qed.

Lemma y_max_ceiling_witness :
  ∃ s', run_updates 120 (new_PhysicsSimulator new_StickFigure) = (s', Ok tt)
        ∧ below_ceiling s'.
Proof.
  exact (y_max_ceiling (new_PhysicsSimulator new_StickFigure) 119 sim_ok_default).
Defined.

(** X16.  The simulation never moves a joint sideways: a step adds the
    horizontal velocity to [x] and leaves that velocity as it is, and a new
    simulator starts every joint at rest, so after any number of steps every
    joint has the [x] it started with. *)
Theorem fresh_simulator_keeps_x (stick_figure : StickFigure Qc) (n : nat) :
  {["left_ankle"; "right_ankle"; "head"]} ⊆ dom (joints stick_figure) →
  ∃ s', run_updates n (new_PhysicsSimulator stick_figure) = (s', Ok tt)
    ∧ ∀ k x y,
        joints stick_figure !! k = Some (x, y) →
        ∃ y' vy',
          joints (sf s') !! k = Some (x, y')
          ∧ velocities s' !! k = Some (0, vy').
Proof.
  intros Hsub. pose proof (sim_ok_new stick_figure Hsub) as Hok0.
  induction n as [|n (s1 & Hrun & Hinv)].
  - eexists. split; [done|]. intros k x y Hk. exists y, 0.
    cbn. split; [done|]. by rewrite lookup_fmap, Hk.
  - rewrite run_updates_S_r, Hrun.
    destruct (run_updates_sim_ok n _ Hok0) as (s1' & Hrun' & Hok1 & _).
    rewrite Hrun in Hrun'. injection Hrun' as <-.
    destruct (update_run s1 Hok1) as (s2 & Hrun2 & _ & _ & _ & _ & _ & Hstep).
    exists s2. split; [done|]. intros k x y Hk.
    destruct (Hinv k x y Hk) as (y1 & vy1 & Hp & Hv).
    destruct (Hstep k _ _ Hp Hv) as [Hp2 Hv2].
    destruct (step_joint_x (gravity s1) (constraints s1 !! k) (x, y1) (0, vy1))
      as [Hx Hvx].
    destruct (step_joint _ _ _ _) as [[a b] [va vb]]. cbn in *. subst.
    exists b, vb. split; [|done]. rewrite Hp2. f_equal. f_equal. ring.
Qed.

Lemma fresh_simulator_keeps_x_witness :
  ∃ s', run_updates 50 (new_PhysicsSimulator new_StickFigure) = (s', Ok tt)
    ∧ ∀ k x y,
        joints new_StickFigure !! k = Some (x, y) →
        ∃ y' vy',
          joints (sf s') !! k = Some (x, y')
          ∧ velocities s' !! k = Some (0, vy').
Proof.
  apply (fresh_simulator_keeps_x new_StickFigure 50).
  intros k Hk. apply elem_of_dom.
  rewrite !elem_of_union, !elem_of_singleton in Hk.
  destruct Hk as [[-> | ->] | ->]; eexists; reflexivity.
Defined.

Lemma fall_bounds (g x y : Qc) (n : nat) :
  g ≤ 0 →
  let r := Nat.iter n (λ pv : (Qc * Qc) * (Qc * Qc), integrate g pv.1 pv.2)
             ((x, y), (0, 0)) in
  r.1.1 = x ∧ r.2.1 = 0 ∧ r.2.2 ≤ 0 ∧ r.1.2 ≤ y
  ∧ ((0 < n)%nat → r.2.2 ≤ g ∧ r.1.2 ≤ y + g).
Proof.
  intros Hg. induction n as [|n IH]; cbn zeta in *.
  - cbn [Nat.iter nat_rect fst snd]. split; [done|]. split; [done|].
    split; [apply Qcle_refl|]. split; [apply Qcle_refl|]. intros H. lia.
  - rewrite Nat.iter_succ.
    destruct (Nat.iter n _ _) as [[x' y'] [vx' vy']]. cbn in IH.
    destruct IH as (-> & -> & Hv & Hy & _).
    unfold integrate. cbn [fst snd].
    assert (Hvg : vy' + g ≤ g).
    { rewrite <- (Qcplus_0_l g) at 2. by apply Qcplus_le_compat; [|apply Qcle_refl]. }
    assert (Hyg : y' + (vy' + g) ≤ y + g) by (by apply Qcplus_le_compat).
    split; [ring|]. split; [done|].
    split; [by apply (Qcle_trans _ g)|].
    split.
    + apply (Qcle_trans _ (y + g)); [done|].
      rewrite <- (Qcplus_0_r y) at 2.
      by apply Qcplus_le_compat; [apply Qcle_refl|].
    + done.
Qed.

(** X17.  Nothing but gravity acts on a joint without a constraint, and
    nothing ever stops it.  [n] steps after a new simulator took the figure,
    its position and velocity are what [n] integration steps, one after the
    other, make of its starting position at rest, whatever the other joints
    do.  So it has not moved sideways, it is not above where it started and
    it is not rising; from the first step on it falls at least as fast as
    the gravity constant and is at or below the height of the first step. *)
Theorem free_fall (stick_figure : StickFigure Qc) (n : nat) :
  {["left_ankle"; "right_ankle"; "head"]} ⊆ dom (joints stick_figure) →
  ∃ s', run_updates n (new_PhysicsSimulator stick_figure) = (s', Ok tt)
    ∧ ∀ k x y,
        joints stick_figure !! k = Some (x, y) →
        _build_constraints !! k = None →
        ∃ y' vy',
          joints (sf s') !! k = Some (x, y')
          ∧ velocities s' !! k = Some (0, vy')
          ∧ ((x, y'), (0, vy'))
            = Nat.iter n
                (λ pv : (Qc * Qc) * (Qc * Qc), integrate (lit (-0.02)) pv.1 pv.2)
                ((x, y), (0, 0))
          ∧ vy' ≤ 0 ∧ y' ≤ y
          ∧ ((0 < n)%nat → vy' ≤ lit (-0.02) ∧ y' ≤ y + lit (-0.02)).
Proof.
  intros Hsub. pose proof (sim_ok_new stick_figure Hsub) as Hok0.
  assert (Hrec : ∃ s',
    run_updates n (new_PhysicsSimulator stick_figure) = (s', Ok tt)
    ∧ ∀ k x y,
        joints stick_figure !! k = Some (x, y) →
        _build_constraints !! k = None →
        joints (sf s') !! k
        = Some (Nat.iter n
                  (λ pv : (Qc * Qc) * (Qc * Qc),
                     integrate (lit (-0.02)) pv.1 pv.2)
                  ((x, y), (0, 0))).1
        ∧ velocities s' !! k
          = Some (Nat.iter n
                    (λ pv : (Qc * Qc) * (Qc * Qc),
                       integrate (lit (-0.02)) pv.1 pv.2)
                    ((x, y), (0, 0))).2).
  { induction n as [|n (s1 & Hrun & Hinv)].
    - eexists. split; [done|]. intros k x y Hk Hc. cbn.
      split; [done|]. by rewrite lookup_fmap, Hk.
    - rewrite run_updates_S_r, Hrun.
      destruct (run_updates_sim_ok n _ Hok0)
        as (s1' & Hrun' & Hok1 & Hg1 & Hc1).
      rewrite Hrun in Hrun'. injection Hrun' as <-.
      destruct (update_run s1 Hok1) as (s2 & Hrun2 & _ & _ & _ & _ & _ & Hstep).
      exists s2. split; [done|]. intros k x y Hk Hc.
      destruct (Hinv k x y Hk Hc) as [Hp Hv].
      destruct (Hstep k _ _ Hp Hv) as [Hp2 Hv2].
      rewrite Hc1 in Hp2, Hv2.
      cbn [constraints new_PhysicsSimulator] in Hp2, Hv2.
      rewrite Hc, Hg1 in Hp2, Hv2. rewrite Nat.iter_succ. done. }
  destruct Hrec as (s' & Hrun & Hinv). exists s'. split; [done|].
  intros k x y Hk Hc. destruct (Hinv k x y Hk Hc) as [Hp Hv].
  pose proof (fall_bounds (lit (-0.02)) x y n) as Hb.
  destruct (Nat.iter n _ _) as [[x' y'] [vx' vy']].
  destruct Hb as (Hx & Hvx & Hvy & Hy & Hpos); [intros H; discriminate H|].
  cbn in Hx, Hvx, Hvy, Hy, Hpos, Hp, Hv. subst x' vx'.
  exists y', vy'. repeat (split; [done|]). done.
Qed.

Lemma free_fall_witness :
  ∃ s', run_updates 10 (new_PhysicsSimulator new_StickFigure) = (s', Ok tt)
    ∧ ∀ k x y,
        joints new_StickFigure !! k = Some (x, y) →
        _build_constraints !! k = None →
        ∃ y' vy',
          joints (sf s') !! k = Some (x, y')
          ∧ velocities s' !! k = Some (0, vy')
          ∧ ((x, y'), (0, vy'))
            = Nat.iter 10
                (λ pv : (Qc * Qc) * (Qc * Qc), integrate (lit (-0.02)) pv.1 pv.2)
                ((x, y), (0, 0))
          ∧ vy' ≤ 0 ∧ y' ≤ y
          ∧ ((0 < 10)%nat → vy' ≤ lit (-0.02) ∧ y' ≤ y + lit (-0.02)).
Proof.
  apply (free_fall new_StickFigure 10).
  intros k Hk. apply elem_of_dom.
  rewrite !elem_of_union, !elem_of_singleton in Hk.
  destruct Hk as [[-> | ->] | ->]; eexists; reflexivity.
Defined.

(** ** The physics toy: constraints applied twice, joints that are missing *)

Lemma apply_constraints_run (s : PhysicsSimulator) :
  sim_ok s →
  ∃ s', apply_constraints s = (s', Ok tt)
    ∧ gravity s' = gravity s ∧ constraints s' = constraints s
    ∧ skeleton_connections (sf s') = skeleton_connections (sf s)
    ∧ dom (joints (sf s')) = dom (joints (sf s))
    ∧ dom (velocities s') = dom (velocities s)
    ∧ ∀ k pos vel,
        joints (sf s) !! k = Some pos → velocities s !! k = Some vel →
        let pv := match constraints s !! k with
                  | Some c => clamp_y_max c (clamp_y_min c (pos, vel))
                  | None => (pos, vel)
                  end in
        joints (sf s') !! k = Some pv.1 ∧ velocities s' !! k = Some pv.2.
Proof.
  intros (Hdom & Hcdom & _).
  destruct (constraints_loop (items (constraints s)) (NoDup_fst_map_to_list _) s)
    as (s' & Hrun & Hg & Hc & Hconn & Hdj & Hdv & Hlook).
  { intros [k c] He%elem_of_map_to_list. cbn.
    assert (Hk : k ∈ dom (joints (sf s))).
    { apply Hcdom, elem_of_dom. eauto. }
    split; apply elem_of_dom; [done|by rewrite Hdom]. }
  exists s'. split; [unfold apply_constraints; mstep; exact Hrun|].
  do 5 (split; [done|]). intros k pos vel Hp Hv.
  specialize (Hlook k pos vel Hp Hv). cbn in Hlook. unfold items in Hlook.
  by rewrite list_to_map_to_list in Hlook.
Qed.

Lemma clamp_fixed (c : constraint) (pv : (Qc * Qc) * (Qc * Qc)) :
  (∀ lo, c !! "y_min" = Some lo → lo ≤ pv.1.2) →
  (∀ hi, c !! "y_max" = Some hi → pv.1.2 ≤ hi) →
  clamp_y_max c (clamp_y_min c pv) = pv.
Proof.
  intros Hlo Hhi. unfold clamp_y_min.
  assert (Hmin : match c !! "y_min" with
                 | Some lo =>
                     if bool_decide (pv.1.2 < lo)
                     then ((pv.1.1, lo), (pv.2.1, - (bounce_damping * pv.2.2)))
                     else pv
                 | None => pv
                 end = pv).
  { destruct (c !! "y_min") as [lo|]; [|done].
    rewrite bool_decide_eq_false_2; [done|]. apply Qcle_not_lt. by apply Hlo. }
  rewrite Hmin. unfold clamp_y_max.
  destruct (c !! "y_max") as [hi|]; [|done].
  rewrite bool_decide_eq_false_2; [done|]. apply Qcle_not_lt. by apply Hhi.
Qed.

Lemma simulator_eq (s t : PhysicsSimulator) :
  joints (sf s) = joints (sf t) →
  skeleton_connections (sf s) = skeleton_connections (sf t) →
  gravity s = gravity t → velocities s = velocities t →
  constraints s = constraints t → s = t.
Proof.
  destruct s as [[js cs] g v c], t as [[jt ct] g' v' c']. cbn.
  by intros -> -> -> -> ->.
Qed.

(** X18.  Applying the constraints a second time changes nothing: on a
    simulator in good order [apply_constraints] returns, and a second call
    on the state it leaves returns that very state, so no joint moves and no
    velocity bounces again. *)
Theorem apply_constraints_idempotent (s : PhysicsSimulator) :
  sim_ok s →
  ∃ s', apply_constraints s = (s', Ok tt)
        ∧ apply_constraints s' = (s', Ok tt).
Proof.
  intros Hok.
  destruct (apply_constraints_run s Hok)
    as (s1 & Hrun1 & Hg1 & Hc1 & Hconn1 & Hdj1 & Hdv1 & Hlook1).
  assert (Hok1 : sim_ok s1).
  { destruct Hok as (Hd & Hcd & Hord). split; [congruence|].
    split; [by rewrite Hc1, Hdj1|]. intros k c. rewrite Hc1. apply Hord. }
  destruct (apply_constraints_run s1 Hok1)
    as (s2 & Hrun2 & Hg2 & Hc2 & Hconn2 & Hdj2 & Hdv2 & Hlook2).
  exists s1. split; [done|]. rewrite Hrun2. f_equal.
  destruct Hok as (Hd & Hcd & Hord).
  assert (Hfix : ∀ k pos vel,
    joints (sf s1) !! k = Some pos → velocities s1 !! k = Some vel →
    joints (sf s2) !! k = Some pos ∧ velocities s2 !! k = Some vel).
  { intros k pos1 vel1 Hp1 Hv1.
    destruct (Hlook2 k pos1 vel1 Hp1 Hv1) as [Hp2 Hv2]. rewrite Hc1 in Hp2, Hv2.
    destruct (constraints s !! k) as [c|] eqn:Hk; [|done].
    assert (Hp : is_Some (joints (sf s) !! k)).
    { apply elem_of_dom. rewrite <- Hdj1. apply elem_of_dom. eauto. }
    assert (Hv : is_Some (velocities s !! k)).
    { apply elem_of_dom. rewrite <- Hdv1. apply elem_of_dom. eauto. }
    destruct Hp as [pos Hp], Hv as [vel Hv].
    destruct (Hlook1 k pos vel Hp Hv) as [Hp1' Hv1']. rewrite Hk in Hp1', Hv1'.
    cbn in Hp1', Hv1'.
    assert (Hpv : (pos1, vel1) = clamp_y_max c (clamp_y_min c (pos, vel))).
    { assert (pos1 = (clamp_y_max c (clamp_y_min c (pos, vel))).1) as ->
        by congruence.
      assert (vel1 = (clamp_y_max c (clamp_y_min c (pos, vel))).2) as ->
        by congruence.
      by rewrite <- surjective_pairing. }
    assert (Hfixed : clamp_y_max c (clamp_y_min c (pos1, vel1)) = (pos1, vel1)).
    { apply clamp_fixed.
      - intros lo Hlo. rewrite Hpv. apply clamp_floor; [by eapply Hord|done].
      - intros hi Hhi. rewrite Hpv. by apply clamp_ceiling. }
    by rewrite Hfixed in Hp2, Hv2. }
  apply simulator_eq; [|done|done| |done].
  - apply map_eq. intros k.
    destruct (joints (sf s1) !! k) as [pos|] eqn:Hp.
    + assert (Hv : is_Some (velocities s1 !! k)).
      { apply elem_of_dom. rewrite Hdv1, Hd, <- Hdj1. apply elem_of_dom. eauto. }
      destruct Hv as [vel Hv]. by destruct (Hfix k pos vel Hp Hv).
    + apply not_elem_of_dom. rewrite Hdj2. by apply not_elem_of_dom.
  - apply map_eq. intros k.
    destruct (velocities s1 !! k) as [vel|] eqn:Hv.
    + assert (Hp : is_Some (joints (sf s1) !! k)).
      { apply elem_of_dom. rewrite Hdj1, <- Hd, <- Hdv1. apply elem_of_dom. eauto. }
      destruct Hp as [pos Hp]. by destruct (Hfix k pos vel Hp Hv).
    + apply not_elem_of_dom. rewrite Hdv2. by apply not_elem_of_dom.
Qed.

Lemma apply_constraints_idempotent_witness :
  ∃ s', apply_constraints (new_PhysicsSimulator new_StickFigure) = (s', Ok tt)
        ∧ apply_constraints s' = (s', Ok tt).
Proof.
  exact (apply_constraints_idempotent (new_PhysicsSimulator new_StickFigure)
           sim_ok_default).
Defined.

Lemma update_moves (s : PhysicsSimulator) :
  dom (velocities s) = dom (joints (sf s)) →
  ∃ s2, update s = apply_constraints s2
    ∧ gravity s2 = gravity s ∧ constraints s2 = constraints s
    ∧ dom (joints (sf s2)) = dom (joints (sf s))
    ∧ dom (velocities s2) = dom (velocities s)
    ∧ ∀ k pos vel,
        joints (sf s) !! k = Some pos → velocities s !! k = Some vel →
        joints (sf s2) !! k = Some (integrate (gravity s) pos vel).1
        ∧ velocities s2 !! k = Some (integrate (gravity s) pos vel).2.
Proof.
  intros Hdom.
  assert (Hvel : ∀ k, is_Some (joints (sf s) !! k) → is_Some (velocities s !! k)).
  { intros k Hk. by apply elem_of_dom; rewrite Hdom; apply elem_of_dom. }
  destruct (gravity_loop (keys (joints (sf s))) (NoDup_keys _) s)
    as (s1 & Hrun1 & Hsf1 & Hg1 & Hc1 & Hv1).
  { intros k Hk%elem_of_keys. by apply Hvel. }
  destruct (move_loop (items (joints (sf s1))) (NoDup_fst_map_to_list _) s1)
    as (s2 & Hrun2 & Hv2 & Hg2 & Hc2 & Hconn2 & Hj2).
  { intros [k pos] He%elem_of_map_to_list. cbn. rewrite Hv1, Hsf1 in *.
    destruct (Hvel k) as [v Hv]; [eauto|]. rewrite Hv. by case_decide. }
  exists s2. split.
  { unfold update, apply_gravity. mstep. rewrite Hrun1. mstep. by rewrite Hrun2. }
  split; [congruence|]. split; [congruence|]. split; [|split].
  - apply set_eq. intros k. rewrite !elem_of_dom, Hj2. unfold items.
    rewrite list_to_map_to_list, Hsf1.
    destruct (joints (sf s) !! k) as [pos|] eqn:Hp.
    + destruct (Hvel k) as [vel Hv]; [eauto|].
      rewrite Hv1, Hv. case_decide; cbn; split; eauto.
    + split; intros [? ?]; done.
  - rewrite Hv2. apply set_eq. intros k. rewrite !elem_of_dom, Hv1.
    case_decide; [|done]. by rewrite fmap_is_Some.
  - intros k pos vel Hp Hv.
    assert (Hk : velocities s1 !! k = Some (vel.1, vel.2 + gravity s)).
    { rewrite Hv1, Hv. rewrite decide_True; [done|]. apply elem_of_keys. eauto. }
    split; [|by rewrite Hv2].
    rewrite Hj2. unfold items. rewrite list_to_map_to_list, Hsf1, Hp, Hk. done.
Qed.

Lemma constraints_loop_raise (l : list (string * constraint)) :
  NoDup l.*1 →
  ∀ s, dom (velocities s) = dom (joints (sf s)) →
    (∃ e, e ∈ l ∧ e.1 ∉ dom (joints (sf s))) →
    ∃ s' k, for_each l (λ e, constrain e.1 e.2) s = (s', Raise (KeyError k))
      ∧ k ∈ l.*1 ∧ (k ∉ dom (joints (sf s)))
      ∧ ∀ k', k' ∉ l.*1 →
          joints (sf s') !! k' = joints (sf s) !! k'
          ∧ velocities s' !! k' = velocities s !! k'.
Proof.
  induction l as [|[k0 c0] rest IH]; intros Hnd s Hdom (e & He & Hmiss).
  - by apply elem_of_nil in He.
  - apply NoDup_cons in Hnd as [Hk0 Hnd]. cbn [for_each]. mstep. cbn [fst snd].
    destruct (joints (sf s) !! k0) as [pos0|] eqn:Hp0.
    + assert (Hv0 : is_Some (velocities s !! k0)).
      { apply elem_of_dom. rewrite Hdom. apply elem_of_dom. eauto. }
      destruct Hv0 as [vel0 Hv0].
      destruct (constrain_run k0 c0 s pos0 vel0 Hp0 Hv0)
        as (s1 & Hrun1 & _ & _ & _ & Hj1 & Hv1).
      rewrite Hrun1.
      assert (Hin0 : k0 ∈ dom (joints (sf s))) by (apply elem_of_dom; eauto).
      destruct (IH Hnd s1) as (s' & k & Hrun & Hk & Hkm & Hrest).
      { rewrite Hj1, Hv1, !dom_insert_L. by rewrite Hdom. }
      { exists e. apply elem_of_cons in He as [->|He]; [done|].
        split; [done|]. rewrite Hj1, dom_insert_L. set_solver. }
      exists s', k. split; [exact Hrun|]. split; [cbn; by right|].
      split.
      { intros Hin. apply Hkm. rewrite Hj1, dom_insert_L. set_solver. }
      intros k' Hk'. cbn in Hk'. apply not_elem_of_cons in Hk' as [Hne Hk'].
      destruct (Hrest k' Hk') as [-> ->]. rewrite Hj1, Hv1.
      by rewrite !lookup_insert_ne.
    + exists s, k0. unfold constrain. mstep. rewrite (getitem_None _ _ Hp0).
      split; [done|]. split; [cbn; left|]. split; [by apply not_elem_of_dom|done].
Qed.

(** X19.  A constraint on a joint that the figure does not have makes
    [update] raise [KeyError] for such a joint, and only after the step was
    taken: every joint without a constraint has by then its new velocity and
    its new position. *)
Theorem update_missing_constrained_joint (s : PhysicsSimulator) (k0 : string) :
  dom (velocities s) = dom (joints (sf s)) →
  k0 ∈ dom (constraints s) → k0 ∉ dom (joints (sf s)) →
  ∃ s' k,
    update s = (s', Raise (KeyError k))
    ∧ k ∈ dom (constraints s) ∧ (k ∉ dom (joints (sf s)))
    ∧ ∀ k' pos vel,
        k' ∉ dom (constraints s) →
        joints (sf s) !! k' = Some pos → velocities s !! k' = Some vel →
        joints (sf s') !! k' = Some (integrate (gravity s) pos vel).1
        ∧ velocities s' !! k' = Some (integrate (gravity s) pos vel).2.
Proof.
  intros Hdom Hin Hout.
  destruct (update_moves s Hdom) as (s2 & -> & Hg2 & Hc2 & Hdj2 & Hdv2 & Hstep).
  apply elem_of_dom in Hin as [c0 Hc0].
  destruct (constraints_loop_raise (items (constraints s2))
              (NoDup_fst_map_to_list _) s2) as (s' & k & Hrun & Hk & Hkm & Hrest).
  { congruence. }
  { exists (k0, c0). split; [|cbn; by rewrite Hdj2].
    apply elem_of_map_to_list. by rewrite Hc2. }
  exists s', k. split; [unfold apply_constraints; mstep; exact Hrun|].
  rewrite Hc2 in Hk, Hrest. split; [by apply elem_of_dom, elem_of_keys|].
  split; [by rewrite <- Hdj2|].
  intros k' pos vel Hk' Hp Hv. destruct (Hstep k' pos vel Hp Hv) as [<- <-].
  apply Hrest. intros Hin'. apply Hk'. by apply elem_of_dom, elem_of_keys.
Qed.

Lemma update_missing_constrained_joint_witness :
  ∃ s' k,
    update (new_PhysicsSimulator without_head) = (s', Raise (KeyError k))
    ∧ k ∈ dom (constraints (new_PhysicsSimulator without_head))
    ∧ (k ∉ dom (joints (sf (new_PhysicsSimulator without_head))))
    ∧ ∀ k' pos vel,
        k' ∉ dom (constraints (new_PhysicsSimulator without_head)) →
        joints (sf (new_PhysicsSimulator without_head)) !! k' = Some pos →
        velocities (new_PhysicsSimulator without_head) !! k' = Some vel →
        joints (sf s') !! k'
        = Some (integrate (gravity (new_PhysicsSimulator without_head))
                  pos vel).1
        ∧ velocities s' !! k'
          = Some (integrate (gravity (new_PhysicsSimulator without_head))
                    pos vel).2.
Proof.
  apply (update_missing_constrained_joint
           (new_PhysicsSimulator without_head) "head").
  - cbn. by rewrite dom_fmap_L.
  - apply elem_of_dom. eexists. vm_compute. reflexivity.
  - apply not_elem_of_dom. vm_compute. reflexivity.
Defined.

Lemma gravity_loop_raise (l : list string) :
  ∀ s, (∃ k, k ∈ l ∧ velocities s !! k = None) →
    ∃ s' k, for_each l accelerate s = (s', Raise (KeyError k))
      ∧ k ∈ l ∧ velocities s !! k = None ∧ sf s' = sf s.
Proof.
  induction l as [|k0 rest IH]; intros s (k1 & Hk1 & Hnone).
  - by apply elem_of_nil in Hk1.
  - cbn [for_each]. mstep.
    destruct (velocities s !! k0) as [[vx vy]|] eqn:Hv0.
    + rewrite (accelerate_run _ _ _ _ Hv0).
      destruct (IH (set_velocity k0 (vx, vy + gravity s) s))
        as (s' & k & Hrun & Hk & Hkn & Hsf).
      { exists k1. apply elem_of_cons in Hk1 as [->|Hk1]; [congruence|].
        split; [done|]. cbn. rewrite lookup_insert_ne; [done|]. congruence. }
      exists s', k. split; [exact Hrun|]. split; [by right|]. split; [|done].
      cbn in Hkn. apply lookup_insert_None in Hkn. tauto.
    + exists s, k0. unfold accelerate. mstep. rewrite (getitem_None _ _ Hv0).
      split; [done|]. split; [left|]. done.
Qed.

(** X20.  A joint that the figure has and the simulator has no velocity
    for (one added to the figure after the simulator was made) makes
    [update] raise [KeyError] for such a joint while gravity is applied: no
    position has changed by then. *)
Theorem update_missing_velocity (s : PhysicsSimulator) (k0 : string) :
  k0 ∈ dom (joints (sf s)) → k0 ∉ dom (velocities s) →
  ∃ s' k,
    update s = (s', Raise (KeyError k))
    ∧ k ∈ dom (joints (sf s)) ∧ (k ∉ dom (velocities s))
    ∧ sf s' = sf s.
Proof.
  intros Hin Hout.
  destruct (gravity_loop_raise (keys (joints (sf s))) s)
    as (s' & k & Hrun & Hk & Hkn & Hsf).
  { exists k0. split; [by apply elem_of_keys, elem_of_dom|].
    by apply not_elem_of_dom. }
  exists s', k. split.
  { unfold update, apply_gravity. mstep. by rewrite Hrun. }
  split; [by apply elem_of_dom, elem_of_keys|].
  split; [by apply not_elem_of_dom|done].
Qed.

Lemma update_missing_velocity_witness :
  ∃ s' k,
    update (set_position "tail" (lit 0, lit (-0.1))
              (new_PhysicsSimulator new_StickFigure))
    = (s', Raise (KeyError k))
    ∧ k ∈ dom (joints (sf (set_position "tail" (lit 0, lit (-0.1))
                             (new_PhysicsSimulator new_StickFigure))))
    ∧ (k ∉ dom (velocities (set_position "tail" (lit 0, lit (-0.1))
                              (new_PhysicsSimulator new_StickFigure))))
    ∧ sf s' = sf (set_position "tail" (lit 0, lit (-0.1))
                    (new_PhysicsSimulator new_StickFigure)).
Proof.
  apply (update_missing_velocity
           (set_position "tail" (lit 0, lit (-0.1))
              (new_PhysicsSimulator new_StickFigure)) "tail").
  - apply elem_of_dom. eexists. apply lookup_insert_eq.
  - apply not_elem_of_dom. vm_compute. reflexivity.
Defined.

(** ** The drop *)

Lemma lift_loop (l : list (string * (Qc * Qc))) :
  NoDup l.*1 →
  ∀ s, ∃ s', for_each l (λ e, raise_joint e.1 e.2) s = (s', Ok tt)
    ∧ velocities s' = velocities s
    ∧ gravity s' = gravity s ∧ constraints s' = constraints s
    ∧ skeleton_connections (sf s') = skeleton_connections (sf s)
    ∧ ∀ k, joints (sf s') !! k =
             match (list_to_map l : pose) !! k with
             | Some pos => Some (pos.1, pos.2 + lit 1.0)
             | None => joints (sf s) !! k
             end.
Proof.
  induction l as [|[k0 pos0] rest IH]; intros Hnd s.
  - exists s. repeat split; try done.
  - apply NoDup_cons in Hnd as [Hk0 Hnd].
    cbn [for_each]. mstep. cbn [fst snd]. unfold raise_joint at 1. mstep.
    edestruct (IH Hnd (set_position k0 (pos0.1, pos0.2 + lit 1.0) s))
      as (s' & Hrun & Hv' & Hg & Hc & Hconn & Hlook).
    exists s'. split; [exact Hrun|]. repeat split; try done.
    intros k. rewrite Hlook. cbn.
    destruct (decide (k = k0)) as [->|Hne].
    + rewrite (not_elem_of_list_to_map_1 rest k0) by done.
      by rewrite !lookup_insert_eq.
    + by rewrite !lookup_insert_ne.
Qed.

Lemma drop_frame_run (frame : Z) (s : PhysicsSimulator) :
  sim_ok s → bones_ok (sf s) →
  ∃ s', update s = (s', Ok tt) ∧ drop_frame frame s = (s', Ok tt)
        ∧ sim_ok s' ∧ bones_ok (sf s').
Proof.
  intros Hok Hbones.
  destruct (update_run s Hok) as (s' & Hrun & _ & _ & Hconn & Hdj & _).
  assert (Hbones' : bones_ok (sf s')).
  { intros c Hc. rewrite Hdj. apply Hbones. by rewrite <- Hconn. }
  exists s'. split; [done|]. split; [|split; [by eapply update_sim_ok|done]].
  unfold drop_frame. mstep. rewrite Hrun. unfold on_sf.
  pose proof (plot_skeleton_state (sf s')) as Hst.
  pose proof (plot_skeleton_ok (sf s') Hbones') as Hres.
  destruct (plot_skeleton (sf s')) as [figure r]. cbn in Hst, Hres. subst.
  by destruct s'.
Qed.

Lemma drop_frames_run (l : list Z) :
  ∀ s, sim_ok s → bones_ok (sf s) →
       for_each l drop_frame s = run_updates (length l) s.
Proof.
  induction l as [|frame rest IH]; intros s Hok Hbones; [done|].
  destruct (drop_frame_run frame s Hok Hbones)
    as (s' & Hup & Hrun & Hok' & Hbones').
  cbn [for_each length run_updates]. mstep. rewrite Hup, Hrun. by apply IH.
Qed.

(** X21.  [drop_animation] on a simulator in good order whose figure can be
    drawn: it lifts every joint by exactly [1.0] and then takes one
    simulation step per frame played; drawing a frame changes nothing and
    never fails.  The state left is the one these steps give, the result is
    the exception that escaped the display, if any, and once a frame was
    played every bounded joint is within its bounds. *)
Theorem drop_animation_run (run : playback) (s : PhysicsSimulator) :
  sim_ok s → bones_ok (sf s) →
  ∃ s',
    run_updates (length (played run))
      (mkPhysicsSimulator
         (mkStickFigure ((λ p : Qc * Qc, (p.1, p.2 + lit 1.0)) <$> joints (sf s))
                        (skeleton_connections (sf s)))
         (gravity s) (velocities s) (constraints s))
    = (s', Ok tt)
    ∧ drop_animation run s
      = (s', match escaped run with Some e => Raise e | None => Ok tt end)
    ∧ sim_ok s'
    ∧ (played run ≠ [] → above_floor s' ∧ below_ceiling s').
Proof.
  intros Hok Hbones.
  set (lifted := mkPhysicsSimulator
         (mkStickFigure ((λ p : Qc * Qc, (p.1, p.2 + lit 1.0)) <$> joints (sf s))
                        (skeleton_connections (sf s)))
         (gravity s) (velocities s) (constraints s)).
  destruct (lift_loop (items (joints (sf s))) (NoDup_fst_map_to_list _) s)
    as (s0 & Hlift & Hv0 & Hg0 & Hc0 & Hconn0 & Hj0).
  assert (Heq : s0 = lifted).
  { apply simulator_eq; try done. apply map_eq. intros k.
    rewrite Hj0. unfold items. rewrite list_to_map_to_list. cbn.
    rewrite lookup_fmap. by destruct (joints (sf s) !! k). }
  subst s0.
  assert (Hok0 : sim_ok lifted).
  { destruct Hok as (Hd & Hcd & Hord). split; [|split]; cbn.
    - by rewrite dom_fmap_L.
    - by rewrite dom_fmap_L.
    - done. }
  assert (Hbones0 : bones_ok (sf lifted)).
  { intros c Hc. cbn. rewrite dom_fmap_L. by apply Hbones. }
  destruct (run_updates_sim_ok (length (played run)) lifted Hok0)
    as (s' & Hrun & Hok' & _ & _).
  exists s'. split; [done|]. split; [|split; [done|]].
  - unfold drop_animation. mstep. rewrite Hlift. mstep.
    rewrite (drop_frames_run _ _ Hok0 Hbones0), Hrun.
    by destruct (escaped run).
  - intros Hne. destruct (played run) as [|frame rest]; [done|].
    cbn [length] in Hrun. rewrite run_updates_S_r in Hrun.
    destruct (run_updates_sim_ok (length rest) lifted Hok0)
      as (s1 & Hrun1 & Hok1 & _ & _).
    rewrite Hrun1 in Hrun.
    split; [by eapply update_above_floor|by eapply update_below_ceiling].
Qed.

Lemma drop_animation_run_witness :
  ∃ s',
    run_updates (length (played (mkPlayback [0%Z; 1%Z; 2%Z] None)))
      (mkPhysicsSimulator
         (mkStickFigure
            ((λ p : Qc * Qc, (p.1, p.2 + lit 1.0))
               <$> joints (sf (new_PhysicsSimulator new_StickFigure)))
            (skeleton_connections (sf (new_PhysicsSimulator new_StickFigure))))
         (gravity (new_PhysicsSimulator new_StickFigure))
         (velocities (new_PhysicsSimulator new_StickFigure))
         (constraints (new_PhysicsSimulator new_StickFigure)))
    = (s', Ok tt)
    ∧ drop_animation (mkPlayback [0%Z; 1%Z; 2%Z] None)
        (new_PhysicsSimulator new_StickFigure)
      = (s', match escaped (mkPlayback [0%Z; 1%Z; 2%Z] None) with
             | Some e => Raise e
             | None => Ok tt
             end)
    ∧ sim_ok s'
    ∧ (played (mkPlayback [0%Z; 1%Z; 2%Z] None) ≠ []
       → above_floor s' ∧ below_ceiling s').
Proof.
  exact (drop_animation_run (mkPlayback [0%Z; 1%Z; 2%Z] None)
           (new_PhysicsSimulator new_StickFigure)
           sim_ok_default (proj2 valid_new_StickFigure)).
Defined.
